(** * VRC Log Renamer: the pattern engine, launch-time reading and the
    log relocation of [application/src/main.rs] and
    [application/src/config.rs], embedded in Rocq.

    The program is written against chrono 0.4 (the 2022 releases whose
    [Fixed] and [Numeric] enums have exactly the variants that
    [pattern_to_string] matches exhaustively) and regex 1.x.  The parts of
    these crates the program calls ([StrftimeItems], formatting with
    [format_with_items], [NaiveDateTime::parse_from_str],
    [Regex::captures]) are modelled after the crates' code, in modules of
    their own, so that each definition of the program reads like its
    source. *)

From Stdlib Require Import ZArith Lia Ascii String.
From stdpp Require Import base list gmap strings.

Local Open Scope Z_scope.

(** Text is handled as a list of Unicode scalar values: a Rust [str]
    read char by char. *)
Abbreviation ustr := (list Z).

(** An ASCII string literal as a list of scalar values. *)
Definition u (s : string) : ustr :=
  map (fun a => Z.of_nat (Ascii.nat_of_ascii a)) (String.list_ascii_of_string s).

Definition cp (a : Ascii.ascii) : Z := Z.of_nat (Ascii.nat_of_ascii a).

(** The ASCII character of a scalar value, if it is one. *)
Definition to_ascii (c : Z) : option Ascii.ascii :=
  if (0 <=? c) && (c <? 128) then Some (Ascii.ascii_of_nat (Z.to_nat c)) else None.

(** [char::is_whitespace]: the Unicode White_Space property. *)
Definition is_whitespace (c : Z) : bool :=
  ((9 <=? c) && (c <=? 13)) || (c =? 32) || (c =? 133) || (c =? 160)
  || (c =? 5760) || ((8192 <=? c) && (c <=? 8202)) || (c =? 8232)
  || (c =? 8233) || (c =? 8239) || (c =? 8287) || (c =? 12288).

(** [s.find(p)] split into the part before the first char satisfying the
    negation of [p] and the rest: the longest prefix of chars with [p]. *)
Fixpoint span (p : Z -> bool) (s : ustr) : ustr * ustr :=
  match s with
  | [] => ([], [])
  | c :: s' => if p c then let '(a, b) := span p s' in (c :: a, b) else ([], s)
  end.

(** [Result<T, E>] *)
Inductive result (A E : Type) : Type :=
| Ok (a : A)
| Err (e : E).
Arguments Ok {A E} a.
Arguments Err {A E} e.

(** ** chrono::format: the items of a format string *)
Module Chrono.

(** [chrono::format::Pad] *)
Module Pad.
Inductive t : Set := None | Zero | Space.
End Pad.

(** [chrono::format::InternalNumeric] has a single field of the empty
    type [Void]: no value of it exists. *)
Inductive InternalNumeric : Set := .

(** [chrono::format::Numeric] *)
Module Numeric.
Inductive t : Set :=
  | Year | YearDiv100 | YearMod100
  | IsoYear | IsoYearDiv100 | IsoYearMod100
  | Month | Day
  | WeekFromSun | WeekFromMon | IsoWeek
  | NumDaysFromSun | WeekdayFromMon | Ordinal
  | Hour | Hour12 | Minute | Second | Nanosecond | Timestamp
  | Internal (i : InternalNumeric).
End Numeric.

(** [chrono::format::InternalInternal], wrapped by [InternalFixed]. *)
Inductive InternalFixed : Set :=
| TimezoneOffsetPermissive
| Nanosecond3NoDot
| Nanosecond6NoDot
| Nanosecond9NoDot.

Definition InternalFixed_eqb (a b : InternalFixed) : bool :=
  match a, b with
  | TimezoneOffsetPermissive, TimezoneOffsetPermissive
  | Nanosecond3NoDot, Nanosecond3NoDot
  | Nanosecond6NoDot, Nanosecond6NoDot
  | Nanosecond9NoDot, Nanosecond9NoDot => true
  | _, _ => false
  end.

(** [chrono::format::Fixed] *)
Module Fixed.
Inductive t : Set :=
  | ShortMonthName | LongMonthName | ShortWeekdayName | LongWeekdayName
  | LowerAmPm | UpperAmPm
  | Nanosecond | Nanosecond3 | Nanosecond6 | Nanosecond9
  | TimezoneName | TimezoneOffsetColon | TimezoneOffsetColonZ
  | TimezoneOffset | TimezoneOffsetZ
  | RFC2822 | RFC3339
  | Internal (i : InternalFixed).
End Fixed.

(** [chrono::format::Item]; [Literal] and [Space] borrow their text,
    [OwnedLiteral] and [OwnedSpace] own it. *)
Inductive Item : Set :=
| Literal (s : ustr)
| OwnedLiteral (s : ustr)
| Space (s : ustr)
| OwnedSpace (s : ustr)
| Numeric (n : Numeric.t) (p : Pad.t)
| Fixed (f : Fixed.t)
| Error.

Definition num (n : Numeric.t) : Item := Numeric n Pad.None.
Definition num0 (n : Numeric.t) : Item := Numeric n Pad.Zero.
Definition nums (n : Numeric.t) : Item := Numeric n Pad.Space.
Definition fix_ (f : Fixed.t) : Item := Fixed f.
Definition internal_fix (i : InternalFixed) : Item := Fixed (Fixed.Internal i).
Definition lit (s : string) : Item := Literal (u s).
Definition sp (s : string) : Item := Space (u s).

(** The item of a specifier character (after any padding or [#]
    modifier), with the reconstructed items that follow it ([recons]) and
    the remainder: the body of the [match spec] in
    [StrftimeItems::next].  [next!()] at the end of the string yields
    [Item::Error]. *)
Definition spec_item (is_alternate : bool) (spec : Z) (s : ustr)
  : Item * list Item * ustr :=
  let next_is (c : Ascii.ascii) (k : ustr -> Item * list Item * ustr) :=
    match s with
    | [] => (Error, [], [])
    | x :: s' => if x =? cp c then k s' else (Error, [], s')
    end in
  match to_ascii spec with
  | Some "A"%char => (fix_ Fixed.LongWeekdayName, [], s)
  | Some "B"%char => (fix_ Fixed.LongMonthName, [], s)
  | Some "C"%char => (num0 Numeric.YearDiv100, [], s)
  | Some "D"%char =>
      (num0 Numeric.Month, [lit "/"; num0 Numeric.Day; lit "/"; num0 Numeric.YearMod100], s)
  | Some "F"%char =>
      (num0 Numeric.Year, [lit "-"; num0 Numeric.Month; lit "-"; num0 Numeric.Day], s)
  | Some "G"%char => (num0 Numeric.IsoYear, [], s)
  | Some "H"%char => (num0 Numeric.Hour, [], s)
  | Some "I"%char => (num0 Numeric.Hour12, [], s)
  | Some "M"%char => (num0 Numeric.Minute, [], s)
  | Some "P"%char => (fix_ Fixed.LowerAmPm, [], s)
  | Some "R"%char => (num0 Numeric.Hour, [lit ":"; num0 Numeric.Minute], s)
  | Some "S"%char => (num0 Numeric.Second, [], s)
  | Some "T"%char =>
      (num0 Numeric.Hour, [lit ":"; num0 Numeric.Minute; lit ":"; num0 Numeric.Second], s)
  | Some "U"%char => (num0 Numeric.WeekFromSun, [], s)
  | Some "V"%char => (num0 Numeric.IsoWeek, [], s)
  | Some "W"%char => (num0 Numeric.WeekFromMon, [], s)
  | Some "X"%char =>
      (num0 Numeric.Hour, [lit ":"; num0 Numeric.Minute; lit ":"; num0 Numeric.Second], s)
  | Some "Y"%char => (num0 Numeric.Year, [], s)
  | Some "Z"%char => (fix_ Fixed.TimezoneName, [], s)
  | Some "a"%char => (fix_ Fixed.ShortWeekdayName, [], s)
  | Some "b"%char | Some "h"%char => (fix_ Fixed.ShortMonthName, [], s)
  | Some "c"%char =>
      (fix_ Fixed.ShortWeekdayName,
       [sp " "; fix_ Fixed.ShortMonthName; sp " "; nums Numeric.Day; sp " ";
        num0 Numeric.Hour; lit ":"; num0 Numeric.Minute; lit ":";
        num0 Numeric.Second; sp " "; num0 Numeric.Year], s)
  | Some "d"%char => (num0 Numeric.Day, [], s)
  | Some "e"%char => (nums Numeric.Day, [], s)
  | Some "f"%char => (num0 Numeric.Nanosecond, [], s)
  | Some "g"%char => (num0 Numeric.IsoYearMod100, [], s)
  | Some "j"%char => (num0 Numeric.Ordinal, [], s)
  | Some "k"%char => (nums Numeric.Hour, [], s)
  | Some "l"%char => (nums Numeric.Hour12, [], s)
  | Some "m"%char => (num0 Numeric.Month, [], s)
  | Some "n"%char => (Space [10], [], s)
  | Some "p"%char => (fix_ Fixed.UpperAmPm, [], s)
  | Some "r"%char =>
      (num0 Numeric.Hour12,
       [lit ":"; num0 Numeric.Minute; lit ":"; num0 Numeric.Second; sp " ";
        fix_ Fixed.UpperAmPm], s)
  | Some "s"%char => (num Numeric.Timestamp, [], s)
  | Some "t"%char => (Space [9], [], s)
  | Some "u"%char => (num Numeric.WeekdayFromMon, [], s)
  | Some "v"%char =>
      (nums Numeric.Day,
       [lit "-"; fix_ Fixed.ShortMonthName; lit "-"; num0 Numeric.Year], s)
  | Some "w"%char => (num Numeric.NumDaysFromSun, [], s)
  | Some "x"%char =>
      (num0 Numeric.Month, [lit "/"; num0 Numeric.Day; lit "/"; num0 Numeric.YearMod100], s)
  | Some "y"%char => (num0 Numeric.YearMod100, [], s)
  | Some "z"%char =>
      if is_alternate then (internal_fix TimezoneOffsetPermissive, [], s)
      else (fix_ Fixed.TimezoneOffset, [], s)
  | Some "+"%char => (fix_ Fixed.RFC3339, [], s)
  | Some ":"%char => next_is "z"%char (fun s' => (fix_ Fixed.TimezoneOffsetColon, [], s'))
  | Some "."%char =>
      match s with
      | [] => (Error, [], [])
      | x :: s' =>
          if x =? cp "3"%char then
            match s' with
            | [] => (Error, [], [])
            | y :: s'' => if y =? cp "f"%char then (fix_ Fixed.Nanosecond3, [], s'') else (Error, [], s'')
            end
          else if x =? cp "6"%char then
            match s' with
            | [] => (Error, [], [])
            | y :: s'' => if y =? cp "f"%char then (fix_ Fixed.Nanosecond6, [], s'') else (Error, [], s'')
            end
          else if x =? cp "9"%char then
            match s' with
            | [] => (Error, [], [])
            | y :: s'' => if y =? cp "f"%char then (fix_ Fixed.Nanosecond9, [], s'') else (Error, [], s'')
            end
          else if x =? cp "f"%char then (fix_ Fixed.Nanosecond, [], s')
          else (Error, [], s')
      end
  | Some "3"%char => next_is "f"%char (fun s' => (internal_fix Nanosecond3NoDot, [], s'))
  | Some "6"%char => next_is "f"%char (fun s' => (internal_fix Nanosecond6NoDot, [], s'))
  | Some "9"%char => next_is "f"%char (fun s' => (internal_fix Nanosecond9NoDot, [], s'))
  | Some "%"%char => (lit "%", [], s)
  | _ => (Error, [], s)
  end.

(** The padding modifier of a specifier. *)
Definition pad_override (c : Z) : option Pad.t :=
  if c =? cp "-"%char then Some Pad.None
  else if c =? cp "0"%char then Some Pad.Zero
  else if c =? cp "_"%char then Some Pad.Space
  else None.

(** One specifier, [s] being the text after its [%]. *)
Definition strftime_spec (s : ustr) : Item * list Item * ustr :=
  match s with
  | [] => (Error, [], [])
  | c :: s1 =>
      let pad := pad_override c in
      let is_alternate := c =? cp "#"%char in
      let step (spec : Z) (rest : ustr) :=
        if is_alternate && negb (spec =? cp "z"%char) then (Error, [], rest)
        else
          let '(item, recons, rest') := spec_item is_alternate spec rest in
          match pad with
          | Some new_pad =>
              match item, recons with
              | Numeric kind _, [] => (Numeric kind new_pad, [], rest')
              | _, _ => (Error, recons, rest')
              end
          | None => (item, recons, rest')
          end in
      if bool_decide (pad <> None) || is_alternate then
        match s1 with
        | [] => (Error, [], [])
        | spec :: s2 => step spec s2
        end
      else step c s1
  end.

(** [StrftimeItems::next] (the reconstructed items are returned together
    with the item that sets them, and are yielded right after it). *)
Definition strftime_next (s : ustr) : option (Item * list Item * ustr) :=
  match s with
  | [] => None
  | c :: rest =>
      if c =? cp "%"%char then Some (strftime_spec rest)
      else if is_whitespace c then
        let '(item, remainder) := span is_whitespace s in Some (Space item, [], remainder)
      else
        let '(item, remainder) :=
          span (fun c => negb (is_whitespace c || (c =? cp "%"%char))) s in
        Some (Literal item, [], remainder)
  end.

(** Every step consumes at least one char, so [length s + 1] steps
    exhaust the iterator. *)
Fixpoint strftime_go (fuel : nat) (s : ustr) : list Item :=
  match fuel with
  | O => []
  | S fuel' =>
      match strftime_next s with
      | None => []
      | Some (item, recons, rest) => item :: recons ++ strftime_go fuel' rest
      end
  end.

(** [StrftimeItems::new(s).collect::<Vec<_>>()] *)
Definition StrftimeItems (s : ustr) : list Item := strftime_go (S (length s)) s.

End Chrono.

Import Chrono.

(** ** config.rs: the output pattern *)

(** [format_internal_format]: the three internal items with a textual
    form, i.e. the items [fixed_internal] reads off ["%3f"], ["%6f"] and
    ["%9f"] (lemma [format_internal_mapping] checks them). *)
Definition format_internal_mapping : list (InternalFixed * ustr) :=
  [(Nanosecond3NoDot, u "%3f"); (Nanosecond6NoDot, u "%6f"); (Nanosecond9NoDot, u "%9f")].

Definition format_internal_format (fixed : InternalFixed) : option ustr :=
  match List.find (fun '(pat, _) => InternalFixed_eqb pat fixed) format_internal_mapping with
  | Some (_, a) => Some a
  | None => None
  end.

(** [pattern_to_string] *)
Definition numeric_char (n : Numeric.t) : result Ascii.ascii string :=
  match n with
  | Numeric.Year => Ok "Y"%char
  | Numeric.YearDiv100 => Ok "C"%char
  | Numeric.YearMod100 => Ok "y"%char
  | Numeric.Month => Ok "m"%char
  | Numeric.Day => Ok "d"%char
  | Numeric.WeekFromSun => Ok "w"%char
  | Numeric.WeekFromMon => Ok "u"%char
  | Numeric.NumDaysFromSun => Ok "U"%char
  | Numeric.WeekdayFromMon => Ok "W"%char
  | Numeric.IsoYear => Ok "G"%char
  | Numeric.IsoYearMod100 => Ok "g"%char
  | Numeric.IsoWeek => Ok "V"%char
  | Numeric.Ordinal => Ok "j"%char
  | Numeric.IsoYearDiv100 => Ok "g"%char
  | Numeric.Hour => Ok "H"%char
  | Numeric.Hour12 => Ok "I"%char
  | Numeric.Minute => Ok "M"%char
  | Numeric.Second => Ok "S"%char
  | Numeric.Nanosecond => Ok "f"%char
  | Numeric.Timestamp => Ok "s"%char
  | Numeric.Internal _ => Err "internal format found"
  end.

Definition pad_char (p : Pad.t) : Ascii.ascii :=
  match p with
  | Pad.None => "-"%char
  | Pad.Zero => "0"%char
  | Pad.Space => "_"%char
  end.

Definition fixed_to_string (f : Fixed.t) : result ustr string :=
  match f with
  | Fixed.ShortMonthName => Ok (u "%b")
  | Fixed.LongMonthName => Ok (u "%B")
  | Fixed.ShortWeekdayName => Ok (u "%a")
  | Fixed.LongWeekdayName => Ok (u "%A")
  | Fixed.LowerAmPm => Ok (u "%P")
  | Fixed.UpperAmPm => Ok (u "%p")
  | Fixed.Nanosecond => Ok (u "%.f")
  | Fixed.Nanosecond3 => Ok (u "%.3f")
  | Fixed.Nanosecond6 => Ok (u "%.6f")
  | Fixed.Nanosecond9 => Ok (u "%.9f")
  | Fixed.TimezoneName => Ok (u "%Z")
  | Fixed.TimezoneOffsetColon => Ok (u "%:z")
  | Fixed.TimezoneOffset => Ok (u "%z")
  | Fixed.RFC2822 => Ok (u "%c")
  | Fixed.RFC3339 => Ok (u "%+")
  | Fixed.TimezoneOffsetColonZ => Err "internal format found"
  | Fixed.TimezoneOffsetZ => Err "internal format found"
  | Fixed.Internal format_in =>
      match format_internal_format format_in with
      | Some s => Ok s
      | None => Err "internal format found"
      end
  end.

(** The text one item appends to [string]. *)
Definition item_to_string (x : Item) : result ustr string :=
  match x with
  | Literal s | OwnedLiteral s | Space s | OwnedSpace s => Ok s
  | Numeric n p =>
      match numeric_char n with
      | Ok c => Ok [cp "%"%char; cp (pad_char p); cp c]
      | Err e => Err e
      end
  | Fixed f => fixed_to_string f
  | Error => Err "format error found"
  end.

Fixpoint pattern_to_string_go (pattern : list Item) (acc : ustr) : result ustr string :=
  match pattern with
  | [] => Ok acc
  | x :: rest =>
      match item_to_string x with
      | Ok s => pattern_to_string_go rest (acc ++ s)
      | Err e => Err e
      end
  end.

Definition pattern_to_string (pattern : list Item) : result ustr string :=
  pattern_to_string_go pattern [].

(** [own_strftime] in [parse_pattern] *)
Definition own_strftime (item : Item) : Item :=
  match item with
  | Literal s => OwnedLiteral s
  | Space s => OwnedSpace s
  | OwnedLiteral s => OwnedLiteral s
  | OwnedSpace s => OwnedSpace s
  | Numeric n p =>
      match n with
      | Numeric.Internal _ => Error
      | _ => Numeric n p
      end
  | Fixed f =>
      match f with
      | Fixed.Internal internal =>
          if bool_decide (format_internal_format internal <> None)
          then Fixed (Fixed.Internal internal) else Error
      | Fixed.TimezoneOffset | Fixed.TimezoneOffsetZ => Error
      | f => Fixed f
      end
  | Error => Error
  end.

Definition is_error (x : Item) : bool :=
  match x with Error => true | _ => false end.

(** [parse_pattern] *)
Definition parse_pattern (str : ustr) : option (list Item) :=
  let pattern := map own_strftime (StrftimeItems str) in
  if existsb is_error pattern then None else Some pattern.

(** ** chrono: calendar values and formatting *)
Module Calendar.

(** [NaiveDate] by its civil fields. *)
Record NaiveDate : Set := mkDate { year : Z; month : Z; day : Z }.

(** [NaiveTime]: [nano] reaches [1_000_000_000 ..] only for a leap second,
    which chrono stores as second 59 with an oversized fraction. *)
Record NaiveTime : Set := mkTime { hour : Z; minute : Z; second : Z; nano : Z }.

Record NaiveDateTime : Set := mkDateTime { date : NaiveDate; time : NaiveTime }.

Definition is_leap (y : Z) : bool :=
  ((y mod 4 =? 0) && negb (y mod 100 =? 0)) || (y mod 400 =? 0).

Definition days_in_month (y m : Z) : Z :=
  if (m =? 2) then (if is_leap y then 29 else 28)
  else if (m =? 4) || (m =? 6) || (m =? 9) || (m =? 11) then 30
  else 31.

(** chrono's supported years. *)
Definition MIN_YEAR : Z := -262143.
Definition MAX_YEAR : Z := 262142.

(** [NaiveDate::from_ymd_opt] *)
Definition from_ymd_opt (y m d : Z) : option NaiveDate :=
  if (MIN_YEAR <=? y) && (y <=? MAX_YEAR) && (1 <=? m) && (m <=? 12)
     && (1 <=? d) && (d <=? days_in_month y m)
  then Some (mkDate y m d) else None.

(** [NaiveTime::from_hms_nano_opt] *)
Definition from_hms_nano_opt (h mi s n : Z) : option NaiveTime :=
  if (0 <=? h) && (h <? 24) && (0 <=? mi) && (mi <? 60) && (0 <=? s) && (s <? 60)
     && (0 <=? n) && (n <? 2000000000)
  then Some (mkTime h mi s n) else None.

(** Days since 1970-01-01 of a civil date (proleptic Gregorian). *)
Definition days_from_civil (d : NaiveDate) : Z :=
  let y := if month d <=? 2 then year d - 1 else year d in
  let era := y / 400 in
  let yoe := y - era * 400 in
  let mp := if month d >? 2 then month d - 3 else month d + 9 in
  let doy := (153 * mp + 2) / 5 + day d - 1 in
  let doe := yoe * 365 + yoe / 4 - yoe / 100 + doy in
  era * 146097 + doe - 719468.

(** The civil date of a day count, inverse of [days_from_civil]. *)
Definition civil_from_days (z : Z) : NaiveDate :=
  let z := z + 719468 in
  let era := z / 146097 in
  let doe := z - era * 146097 in
  let yoe := (doe - doe / 1460 + doe / 36524 - doe / 146096) / 365 in
  let doy := doe - (365 * yoe + yoe / 4 - yoe / 100) in
  let mp := (5 * doy + 2) / 153 in
  let d := doy - (153 * mp + 2) / 5 + 1 in
  let m := if mp <? 10 then mp + 3 else mp - 9 in
  mkDate (if m <=? 2 then yoe + era * 400 + 1 else yoe + era * 400) m d.

(** [Weekday::num_days_from_sunday] and [num_days_from_monday]. *)
Definition num_days_from_sunday (d : NaiveDate) : Z := (days_from_civil d + 4) mod 7.
Definition num_days_from_monday (d : NaiveDate) : Z := (days_from_civil d + 3) mod 7.

(** [Datelike::ordinal] *)
Definition ordinal (d : NaiveDate) : Z :=
  days_from_civil d - days_from_civil (mkDate (year d) 1 1) + 1.

(** Number of ISO weeks of a year: 53 when January 1st is a Thursday,
    or a Wednesday in a leap year. *)
Definition nisoweeks (y : Z) : Z :=
  let jan1 := num_days_from_monday (mkDate y 1 1) in
  if (jan1 =? 3) || (is_leap y && (jan1 =? 2)) then 53 else 52.

(** [Datelike::iso_week] as (ISO year, ISO week). *)
Definition iso_week (d : NaiveDate) : Z * Z :=
  let rawweek := (ordinal d + 10 - (num_days_from_monday d + 1)) / 7 in
  if rawweek <? 1 then (year d - 1, nisoweeks (year d - 1))
  else if rawweek >? nisoweeks (year d) then (year d + 1, 1)
  else (year d, rawweek).

(** [NaiveDateTime::timestamp] (a leap second counts as second 59). *)
Definition timestamp (dt : NaiveDateTime) : Z :=
  days_from_civil (date dt) * 86400
  + hour (time dt) * 3600 + minute (time dt) * 60 + second (time dt).

(** The naive date-time [secs] seconds and [nanos] nanoseconds after the
    Unix epoch ([NaiveDateTime::from_timestamp]). *)
Definition from_timestamp (secs nanos : Z) : NaiveDateTime :=
  let days := secs / 86400 in
  let sod := secs mod 86400 in
  mkDateTime (civil_from_days days) (mkTime (sod / 3600) (sod mod 3600 / 60) (sod mod 60) nanos).

(** [dt - offset] for an offset in seconds (no leap second on the way). *)
Definition sub_offset (dt : NaiveDateTime) (off : Z) : NaiveDateTime :=
  let dt' := from_timestamp (timestamp dt - off) 0 in
  mkDateTime (date dt') (mkTime (hour (time dt')) (minute (time dt')) (second (time dt'))
                              (nano (time dt))).

(** Decimal digits of a natural number. *)
Fixpoint uint_digits (d : Decimal.uint) : ustr :=
  match d with
  | Decimal.Nil => []
  | Decimal.D0 d => 48 :: uint_digits d
  | Decimal.D1 d => 49 :: uint_digits d
  | Decimal.D2 d => 50 :: uint_digits d
  | Decimal.D3 d => 51 :: uint_digits d
  | Decimal.D4 d => 52 :: uint_digits d
  | Decimal.D5 d => 53 :: uint_digits d
  | Decimal.D6 d => 54 :: uint_digits d
  | Decimal.D7 d => 55 :: uint_digits d
  | Decimal.D8 d => 56 :: uint_digits d
  | Decimal.D9 d => 57 :: uint_digits d
  end.

Definition digits (n : Z) : ustr := uint_digits (N.to_uint (Z.to_N (Z.abs n))).

(** Rust's integer formatting: [{}] ([Pad.None]), [{:0w}] ([Pad.Zero],
    zeros after the sign) and [{:w}] ([Pad.Space], spaces before it);
    [plus] adds the [+] flag. *)
Definition fmt_int (plus : bool) (pad : Pad.t) (width : nat) (v : Z) : ustr :=
  let sign := if v <? 0 then [45] else if plus then [43] else [] in
  let body := digits v in
  let fill := (width - (length sign + length body))%nat in
  match pad with
  | Pad.None => sign ++ body
  | Pad.Zero => sign ++ repeat 48 fill ++ body
  | Pad.Space => repeat 32 fill ++ sign ++ body
  end.

Definition pad2 (v : Z) : ustr := fmt_int false Pad.Zero 2 v.

Definition short_months : list string :=
  ["Jan"; "Feb"; "Mar"; "Apr"; "May"; "Jun"; "Jul"; "Aug"; "Sep"; "Oct"; "Nov"; "Dec"].
Definition long_months : list string :=
  ["January"; "February"; "March"; "April"; "May"; "June"; "July"; "August";
   "September"; "October"; "November"; "December"].
Definition short_weekdays : list string := ["Sun"; "Mon"; "Tue"; "Wed"; "Thu"; "Fri"; "Sat"].
Definition long_weekdays : list string :=
  ["Sunday"; "Monday"; "Tuesday"; "Wednesday"; "Thursday"; "Friday"; "Saturday"].

Definition nth_name (l : list string) (i : Z) : ustr := u (nth (Z.to_nat i) l ""%string).

(** The value and default width of a numeric item ([format_inner]). *)
Definition numeric_value (spec : Numeric.t) (d : NaiveDate) (t : NaiveTime)
    (off : option (ustr * Z)) : nat * Z :=
  match spec with
  | Numeric.Year => (4%nat, year d)
  | Numeric.YearDiv100 => (2%nat, year d / 100)
  | Numeric.YearMod100 => (2%nat, year d mod 100)
  | Numeric.IsoYear => (4%nat, fst (iso_week d))
  | Numeric.IsoYearDiv100 => (2%nat, fst (iso_week d) / 100)
  | Numeric.IsoYearMod100 => (2%nat, fst (iso_week d) mod 100)
  | Numeric.Month => (2%nat, month d)
  | Numeric.Day => (2%nat, day d)
  | Numeric.WeekFromSun => (2%nat, (ordinal d - num_days_from_sunday d + 6) / 7)
  | Numeric.WeekFromMon => (2%nat, (ordinal d - num_days_from_monday d + 6) / 7)
  | Numeric.IsoWeek => (2%nat, snd (iso_week d))
  | Numeric.NumDaysFromSun => (1%nat, num_days_from_sunday d)
  | Numeric.WeekdayFromMon => (1%nat, num_days_from_monday d + 1)
  | Numeric.Ordinal => (3%nat, ordinal d)
  | Numeric.Hour => (2%nat, hour t)
  | Numeric.Hour12 => (2%nat, (hour t + 11) mod 12 + 1)
  | Numeric.Minute => (2%nat, minute t)
  | Numeric.Second => (2%nat, second t + nano t / 1000000000)
  | Numeric.Nanosecond => (9%nat, nano t mod 1000000000)
  | Numeric.Timestamp =>
      (1%nat, match off with
              | None => timestamp (mkDateTime d t)
              | Some (_, o) => timestamp (sub_offset (mkDateTime d t) o)
              end)
  | Numeric.Internal i => match i with end
  end.

Definition format_numeric (spec : Numeric.t) (pad : Pad.t) (d : NaiveDate) (t : NaiveTime)
    (off : option (ustr * Z)) : ustr :=
  let '(width, v) := numeric_value spec d t off in
  let signed_year := match spec with Numeric.Year | Numeric.IsoYear => true | _ => false end in
  if signed_year && negb ((0 <=? v) && (v <? 10000))
  then fmt_int true pad (S width) v
  else fmt_int false pad width v.

(** [write_local_minus_utc] *)
Definition write_local_minus_utc (off : Z) (allow_zulu use_colon : bool) : ustr :=
  if negb allow_zulu || negb (off =? 0) then
    let '(sign, off) := if off <? 0 then (45, - off) else (43, off) in
    if use_colon then [sign] ++ pad2 (off / 3600) ++ [58] ++ pad2 (off / 60 mod 60)
    else [sign] ++ pad2 (off / 3600) ++ pad2 (off / 60 mod 60)
  else [90].

(** The fraction written by [.{:03}], [.{:06}] or [.{:09}] as chrono
    picks it for [%.f] and the [Debug] form of times. *)
Definition auto_fraction (nano : Z) : ustr :=
  if nano =? 0 then []
  else if nano mod 1000000 =? 0 then 46 :: fmt_int false Pad.Zero 3 (nano / 1000000)
  else if nano mod 1000 =? 0 then 46 :: fmt_int false Pad.Zero 6 (nano / 1000)
  else 46 :: fmt_int false Pad.Zero 9 nano.

(** [Debug] of [NaiveDate] and [NaiveTime]. *)
Definition debug_date (d : NaiveDate) : ustr :=
  (if (0 <=? year d) && (year d <=? 9999) then fmt_int false Pad.Zero 4 (year d)
   else fmt_int true Pad.Zero 5 (year d))
  ++ [45] ++ pad2 (month d) ++ [45] ++ pad2 (day d).

Definition debug_time (t : NaiveTime) : ustr :=
  let '(nano, sec) := if nano t >=? 1000000000 then (nano t - 1000000000, second t + 1)
                      else (nano t, second t) in
  pad2 (hour t) ++ [58] ++ pad2 (minute t) ++ [58] ++ pad2 sec ++ auto_fraction nano.

(** The [Fixed] arm of [format_inner]; [None] is chrono's
    "insufficient arguments" [fmt::Error] (the offset is missing), and
    [%#z] cannot be written either. *)
Definition format_fixed (spec : Fixed.t) (d : NaiveDate) (t : NaiveTime)
    (off : option (ustr * Z)) : option ustr :=
  let frac := nano t mod 1000000000 in
  match spec with
  | Fixed.ShortMonthName => Some (nth_name short_months (month d - 1))
  | Fixed.LongMonthName => Some (nth_name long_months (month d - 1))
  | Fixed.ShortWeekdayName => Some (nth_name short_weekdays (num_days_from_sunday d))
  | Fixed.LongWeekdayName => Some (nth_name long_weekdays (num_days_from_sunday d))
  | Fixed.LowerAmPm => Some (if hour t >=? 12 then u "pm" else u "am")
  | Fixed.UpperAmPm => Some (if hour t >=? 12 then u "PM" else u "AM")
  | Fixed.Nanosecond => Some (auto_fraction frac)
  | Fixed.Nanosecond3 => Some (46 :: fmt_int false Pad.Zero 3 (frac / 1000000))
  | Fixed.Nanosecond6 => Some (46 :: fmt_int false Pad.Zero 6 (frac / 1000))
  | Fixed.Nanosecond9 => Some (46 :: fmt_int false Pad.Zero 9 frac)
  | Fixed.Internal Nanosecond3NoDot => Some (fmt_int false Pad.Zero 3 (frac / 1000000))
  | Fixed.Internal Nanosecond6NoDot => Some (fmt_int false Pad.Zero 6 (frac / 1000))
  | Fixed.Internal Nanosecond9NoDot => Some (fmt_int false Pad.Zero 9 frac)
  | Fixed.Internal TimezoneOffsetPermissive => None
  | Fixed.TimezoneName => option_map fst off
  | Fixed.TimezoneOffsetColon => option_map (fun o => write_local_minus_utc (snd o) false true) off
  | Fixed.TimezoneOffsetColonZ => option_map (fun o => write_local_minus_utc (snd o) true true) off
  | Fixed.TimezoneOffset => option_map (fun o => write_local_minus_utc (snd o) false false) off
  | Fixed.TimezoneOffsetZ => option_map (fun o => write_local_minus_utc (snd o) true false) off
  | Fixed.RFC2822 =>
      option_map (fun o =>
        nth_name short_weekdays (num_days_from_sunday d) ++ u ", " ++ pad2 (day d) ++ [32]
        ++ nth_name short_months (month d - 1) ++ [32] ++ fmt_int false Pad.Zero 4 (year d)
        ++ [32] ++ pad2 (hour t) ++ [58] ++ pad2 (minute t) ++ [58]
        ++ pad2 (second t + nano t / 1000000000) ++ [32]
        ++ write_local_minus_utc (snd o) false false) off
  | Fixed.RFC3339 =>
      option_map (fun o =>
        debug_date d ++ [84] ++ debug_time t ++ write_local_minus_utc (snd o) false true) off
  end.

(** [format_inner] for one item. *)
Definition format_item (d : NaiveDate) (t : NaiveTime) (off : option (ustr * Z)) (item : Item)
  : option ustr :=
  match item with
  | Literal s | OwnedLiteral s | Space s | OwnedSpace s => Some s
  | Numeric spec pad => Some (format_numeric spec pad d t off)
  | Fixed spec => format_fixed spec d t off
  | Error => None
  end.

(** [Display] of a [DelayedFormat]: the items formatted in order, failing
    with [fmt::Error] as soon as one item fails. *)
Fixpoint format_items (d : NaiveDate) (t : NaiveTime) (off : option (ustr * Z))
    (items : list Item) : option ustr :=
  match items with
  | [] => Some []
  | it :: rest =>
      match format_item d t off it, format_items d t off rest with
      | Some s, Some r => Some (s ++ r)
      | _, _ => None
      end
  end.

(** [NaiveDateTime::format_with_items]: no offset is known. *)
Definition naive_format_with_items (dt : NaiveDateTime) (items : list Item) : option ustr :=
  format_items (date dt) (time dt) None items.

(** [DateTime<Utc>], by its UTC date-time; [format_with_items] formats
    the local (here UTC) date-time with the offset named ["UTC"], 0 s. *)
Record DateTimeUtc : Set := mkUtc { utc_naive : NaiveDateTime }.

Definition utc_format_with_items (dt : DateTimeUtc) (items : list Item) : option ustr :=
  format_items (date (utc_naive dt)) (time (utc_naive dt)) (Some (u "UTC", 0)) items.

(** [LocalResult] and [earliest]. *)
Inductive LocalResult (A : Type) : Type :=
| LNone
| Single (a : A)
| Ambiguous (a b : A).
Arguments LNone {A}.
Arguments Single {A} a.
Arguments Ambiguous {A} a b.

Definition earliest {A} (r : LocalResult A) : option A :=
  match r with
  | LNone => None
  | Single a => Some a
  | Ambiguous a _ => Some a
  end.

(** [NaiveDateTime::and_local_timezone(Utc)]: [Utc.from_local_datetime]
    maps through [Utc::offset_from_local_datetime], which is always
    [LocalResult::Single(Utc)], and subtracts the zero offset. *)
Definition utc_offset_from_local_datetime (_ : NaiveDateTime) : LocalResult Z := Single 0.

Definition and_local_timezone_utc (dt : NaiveDateTime) : LocalResult DateTimeUtc :=
  match utc_offset_from_local_datetime dt with
  | LNone => LNone
  | Single o => Single (mkUtc (sub_offset dt o))
  | Ambiguous o1 o2 => Ambiguous (mkUtc (sub_offset dt o1)) (mkUtc (sub_offset dt o2))
  end.

End Calendar.

(** ** main.rs: placeholder substitution in literal items *)
Module Matching.

(** [str::find(c)] as the index of the first occurrence. *)
Fixpoint find (c : Z) (s : ustr) : option nat :=
  match s with
  | [] => None
  | x :: s' => if x =? c then Some O else option_map S (find c s')
  end.

Definition LBRACE : Z := 123.
Definition RBRACE : Z := 125.

(** A resolver [f : &str -> Option<Cow<str>>]. *)
Abbreviation resolver := (ustr -> option ustr).

(** The inner [loops] of [process_lit]: [pat] and [builder] are its two
    [&mut] arguments, returned as they are when a [?] leaves the loop.
    Every round drops at least the two braces from [pat]; [fuel] counts
    the rounds. *)
Fixpoint loops (fuel : nat) (f : resolver) (pat builder : ustr) : ustr * ustr :=
  match fuel with
  | O => (pat, builder)
  | S fuel' =>
      match find LBRACE pat with
      | None => (pat, builder)
      | Some pat_start =>
          let builder := builder ++ take pat_start pat in
          let pat := drop pat_start pat in
          match find RBRACE pat with
          | None => (pat, builder)
          | Some e =>
              let pat_end := S e in
              let var := take pat_end pat in
              let pat := drop pat_end pat in
              (* remove { and } *)
              let var_name := take (length var - 2) (drop 1 var) in
              let builder := builder ++ default var (f var_name) in
              loops fuel' f pat builder
          end
      end
  end.

(** [MatchingIter::process_lit].  [pat] is always a suffix of [pat_in],
    so the pointer comparison of the two [&str] holds exactly when [pat]
    kept the length of [pat_in]. *)
Definition process_lit (f : resolver) (pat_in : ustr) : option ustr :=
  let '(pat, builder) := loops (S (length pat_in)) f pat_in [] in
  if (length pat_in =? length pat)%nat then None
  else Some (builder ++ pat).

(** [MatchingIter::next] on one item. *)
Definition matching_item (f : resolver) (item : Item) : Item :=
  match item with
  | Literal lit | OwnedLiteral lit =>
      match process_lit f lit with
      | None => item
      | Some changed => OwnedLiteral changed
      end
  | other => other
  end.

(** The items a [MatchingIter] yields over [base_iter]. *)
Definition MatchingIter (base : list Item) (f : resolver) : list Item :=
  map (matching_item f) base.

(** [str::split_once(c)] *)
Definition split_once (c : Z) (s : ustr) : option (ustr * ustr) :=
  match find c s with
  | None => None
  | Some i => Some (take i s, drop (S i) s)
  end.

End Matching.

(** ** regex: leftmost-first matching with named groups *)
Module Regex.

(** The syntax tree of a compiled pattern.  [Class p] matches one char
    satisfying [p]; [Star r] is the greedy [r*]; [Group name r] is
    [(?P<name>r)]; [StartText] and [EndText] are [^] and [$] without the
    multi-line flag. *)
Inductive regex : Type :=
| Empty
| Class (p : Z -> bool)
| Cat (r1 r2 : regex)
| Alt (r1 r2 : regex)
| Group (name : ustr) (r : regex)
| Star (r : regex)
| StartText
| EndText.

(** Group spans recorded along a match, latest first. *)
Abbreviation caps := (list (ustr * (nat * nat))).

(** Backtracking in priority order (leftmost-first, greedy repetition
    first), in continuation-passing style: [k] receives the rest of the
    haystack, the position reached and the spans. *)
Fixpoint bt {R} (r : regex) (s : ustr) (pos : nat) (cs : caps)
    (k : ustr -> nat -> caps -> option R) {struct r} : option R :=
  match r with
  | Empty => k s pos cs
  | Class p =>
      match s with
      | c :: s' => if p c then k s' (S pos) cs else None
      | [] => None
      end
  | Cat r1 r2 => bt r1 s pos cs (fun s1 p1 c1 => bt r2 s1 p1 c1 k)
  | Alt r1 r2 =>
      match bt r1 s pos cs k with
      | Some x => Some x
      | None => bt r2 s pos cs k
      end
  | Group name r1 => bt r1 s pos cs (fun s1 p1 c1 => k s1 p1 ((name, (pos, p1)) :: c1))
  | Star r1 =>
      (fix star (fuel : nat) (s : ustr) (pos : nat) (cs : caps) : option R :=
         match fuel with
         | O => k s pos cs
         | S fuel' =>
             match bt r1 s pos cs
                     (fun s1 p1 c1 => if (p1 <=? pos)%nat then None else star fuel' s1 p1 c1) with
             | Some x => Some x
             | None => k s pos cs
             end
         end) (S (length s)) s pos cs
  | StartText => if (pos =? 0)%nat then k s pos cs else None
  | EndText => match s with [] => k s pos cs | _ => None end
  end.

(** [regex::Captures]: the haystack and the spans of the named groups
    of the match. *)
Record Captures : Type := mkCaptures { hay : ustr; spans : caps }.

(** The leftmost match: the first start position with a match.  The
    span of the whole match is recorded under the empty name, which no
    named group can have. *)
Fixpoint search (r : regex) (s : ustr) (pos : nat) : option caps :=
  match bt r s pos [] (fun _ p1 c1 => Some (([], (pos, p1)) :: c1)) with
  | Some cs => Some cs
  | None =>
      match s with
      | [] => None
      | _ :: s' => search r s' (S pos)
      end
  end.

(** [Regex::captures] *)
Definition captures (r : regex) (hay : ustr) : option Captures :=
  option_map (mkCaptures hay) (search r hay 0).

Fixpoint lookup_span (name : ustr) (cs : caps) : option (nat * nat) :=
  match cs with
  | [] => None
  | (n, sp) :: cs' => if bool_decide (n = name) then Some sp else lookup_span name cs'
  end.

(** [Captures::name]: the text of the group when it took part in the
    match.  No group has the empty name, so it gives [None] there. *)
Definition name (c : Captures) (n : ustr) : option ustr :=
  if bool_decide (n = []) then None else
  match lookup_span n (spans c) with
  | Some (b, e) => Some (take (e - b) (drop b (hay c)))
  | None => None
  end.

(** Pattern building blocks. *)
Definition chr (c : Z) : regex := Class (fun x => x =? c).
Fixpoint text (s : ustr) : regex :=
  match s with
  | [] => Empty
  | c :: s' => Cat (chr c) (text s')
  end.
Definition opt (r : regex) : regex := Alt r Empty.
Definition plus (r : regex) : regex := Cat r (Star r).
Fixpoint rep (n : nat) (r : regex) : regex :=
  match n with O => Empty | S n' => Cat r (rep n' r) end.
Definition seq (rs : list regex) : regex := fold_right Cat Empty rs.

(** [\d] on the ASCII digits.  Rust's [\d] is Unicode-aware and also
    takes the other decimal digits (category Nd); file names with such
    digits are not considered in this development. *)
Definition digit : regex := Class (fun c => (48 <=? c) && (c <=? 57)).

(** [^output_log_(?P<in_sec_num>\d+)?\.txt$], the pattern of the spec's
    example. *)
Definition example_pattern : regex :=
  seq [StartText; text (u "output_log_"); opt (Group (u "in_sec_num") (plus digit));
       text (u ".txt"); EndText].

(** [Source::pattern_default]:
    [^output_log_(?:\d{4}-\d{2}-\d{2}_)?\d{2}-\d{2}-\d{2}(?P<in_sec_num>\d+)?\.txt$] *)
Definition default_pattern : regex :=
  seq [StartText; text (u "output_log_");
       opt (seq [rep 4 digit; chr 45; rep 2 digit; chr 45; rep 2 digit; chr 95]);
       rep 2 digit; chr 45; rep 2 digit; chr 45; rep 2 digit;
       opt (Group (u "in_sec_num") (plus digit));
       text (u ".txt"); EndText].

End Regex.

(** ** [std::str::from_utf8] *)
Module Utf8.

Definition cont (b : Z) : bool := (128 <=? b) && (b <=? 191).
Definition between (lo hi b : Z) : bool := (lo <=? b) && (b <=? hi).

(** The scalar values of well-formed UTF-8 (the Unicode table of
    well-formed byte sequences, which [from_utf8] checks), [None] on any
    ill-formed sequence. *)
Fixpoint decode (bs : list Z) : option ustr :=
  match bs with
  | [] => Some []
  | b0 :: r0 =>
      if b0 <? 128 then option_map (cons b0) (decode r0)
      else if between 194 223 b0 then
        match r0 with
        | b1 :: r1 =>
            if cont b1 then option_map (cons ((b0 - 192) * 64 + (b1 - 128))) (decode r1)
            else None
        | [] => None
        end
      else if between 224 239 b0 then
        match r0 with
        | b1 :: b2 :: r2 =>
            let ok1 := if b0 =? 224 then between 160 191 b1
                       else if b0 =? 237 then between 128 159 b1
                       else cont b1 in
            if ok1 && cont b2 then
              option_map (cons ((b0 - 224) * 4096 + (b1 - 128) * 64 + (b2 - 128))) (decode r2)
            else None
        | _ => None
        end
      else if between 240 244 b0 then
        match r0 with
        | b1 :: b2 :: b3 :: r3 =>
            let ok1 := if b0 =? 240 then between 144 191 b1
                       else if b0 =? 244 then between 128 143 b1
                       else cont b1 in
            if ok1 && cont b2 && cont b3 then
              option_map (cons ((b0 - 240) * 262144 + (b1 - 128) * 4096 + (b2 - 128) * 64
                                + (b3 - 128))) (decode r3)
            else None
        | _ => None
        end
      else None
  end.

Definition byte_val (b : Byte.byte) : Z := Z.of_N (Byte.to_N b).

(** [std::str::from_utf8] *)
Definition from_utf8 (bs : list Byte.byte) : option ustr := decode (map byte_val bs).

End Utf8.

(** ** chrono: [NaiveDateTime::parse_from_str] *)
Module Parse.
Import Calendar.

Inductive ParseError : Set :=
| OUT_OF_RANGE | IMPOSSIBLE | NOT_ENOUGH | INVALID | TOO_SHORT | TOO_LONG | BAD_FORMAT.

(** The fields of [chrono::format::Parsed] that the format
    ["%Y.%m.%d %H:%M:%S"] can set. *)
Record Parsed : Set := mkParsed {
  p_year : option Z; p_month : option Z; p_day : option Z;
  p_hour_div_12 : option Z; p_hour_mod_12 : option Z;
  p_minute : option Z; p_second : option Z }.

Definition parsed_empty : Parsed := mkParsed None None None None None None None.

(** [set_if_consistent] *)
Definition set_if_consistent (old : option Z) (v : Z) : result (option Z) ParseError :=
  match old with
  | Some o => if o =? v then Ok (Some o) else Err IMPOSSIBLE
  | None => Ok (Some v)
  end.

Definition I32_MIN : Z := - 2 ^ 31.
Definition I32_MAX : Z := 2 ^ 31 - 1.
Definition U32_MAX : Z := 2 ^ 32 - 1.
Definition I64_MAX : Z := 2 ^ 63 - 1.

(** [i64::try_into::<i32>()] and [::<u32>()] *)
Definition to_i32 (v : Z) : result Z ParseError :=
  if (I32_MIN <=? v) && (v <=? I32_MAX) then Ok v else Err OUT_OF_RANGE.
Definition to_u32 (v : Z) : result Z ParseError :=
  if (0 <=? v) && (v <=? U32_MAX) then Ok v else Err OUT_OF_RANGE.

Definition rbind {A B E} (r : result A E) (k : A -> result B E) : result B E :=
  match r with Ok a => k a | Err e => Err e end.

(** The setters of [Parsed] for the six numeric fields. *)
Definition set_field (spec : Numeric.t) (p : Parsed) (v : Z) : result Parsed ParseError :=
  match spec with
  | Numeric.Year => rbind (to_i32 v) (fun v =>
      rbind (set_if_consistent (p_year p) v) (fun y =>
      Ok (mkParsed y (p_month p) (p_day p) (p_hour_div_12 p) (p_hour_mod_12 p) (p_minute p) (p_second p))))
  | Numeric.Month => rbind (to_u32 v) (fun v =>
      rbind (set_if_consistent (p_month p) v) (fun m =>
      Ok (mkParsed (p_year p) m (p_day p) (p_hour_div_12 p) (p_hour_mod_12 p) (p_minute p) (p_second p))))
  | Numeric.Day => rbind (to_u32 v) (fun v =>
      rbind (set_if_consistent (p_day p) v) (fun d =>
      Ok (mkParsed (p_year p) (p_month p) d (p_hour_div_12 p) (p_hour_mod_12 p) (p_minute p) (p_second p))))
  | Numeric.Hour => rbind (to_u32 v) (fun v =>
      rbind (set_if_consistent (p_hour_div_12 p) (v / 12)) (fun hd =>
      rbind (set_if_consistent (p_hour_mod_12 p) (v mod 12)) (fun hm =>
      Ok (mkParsed (p_year p) (p_month p) (p_day p) hd hm (p_minute p) (p_second p)))))
  | Numeric.Minute => rbind (to_u32 v) (fun v =>
      rbind (set_if_consistent (p_minute p) v) (fun mi =>
      Ok (mkParsed (p_year p) (p_month p) (p_day p) (p_hour_div_12 p) (p_hour_mod_12 p) mi (p_second p))))
  | Numeric.Second => rbind (to_u32 v) (fun v =>
      rbind (set_if_consistent (p_second p) v) (fun s =>
      Ok (mkParsed (p_year p) (p_month p) (p_day p) (p_hour_div_12 p) (p_hour_mod_12 p) (p_minute p) s)))
  | _ => Err BAD_FORMAT
  end.

(** The width and signedness of a numeric field in [parse_internal]. *)
Definition numeric_width (spec : Numeric.t) : option (nat * bool) :=
  match spec with
  | Numeric.Year => Some (4%nat, true)
  | Numeric.Month | Numeric.Day | Numeric.Hour | Numeric.Minute | Numeric.Second =>
      Some (2%nat, false)
  | _ => None
  end.

Definition is_digit (c : Z) : bool := (48 <=? c) && (c <=? 57).

(** [scan::number(s, 1, max)], [max = None] being [usize::MAX]. *)
Fixpoint number_go (max : option nat) (i : nat) (s : ustr) (n : Z) : result (ustr * Z) ParseError :=
  match max with
  | Some O => Ok (s, n)
  | _ =>
      match s with
      | [] => Ok (s, n)
      | c :: s' =>
          if is_digit c then
            let n' := n * 10 + (c - 48) in
            if n' >? I64_MAX then Err OUT_OF_RANGE
            else number_go (option_map Nat.pred max) (S i) s' n'
          else if (i <? 1)%nat then Err INVALID else Ok (s, n)
      end
  end.

Definition number (s : ustr) (max : option nat) : result (ustr * Z) ParseError :=
  match s with
  | [] => Err TOO_SHORT
  | _ => number_go max O s 0
  end.

(** [str::trim_start] *)
Fixpoint trim_left (s : ustr) : ustr :=
  match s with
  | c :: s' => if is_whitespace c then trim_left s' else s
  | [] => []
  end.

Fixpoint strip_prefix (pre s : ustr) : option ustr :=
  match pre, s with
  | [], _ => Some s
  | c :: pre', d :: s' => if c =? d then strip_prefix pre' s' else None
  | _ :: _, [] => None
  end.

(** [parse_internal] over the items; an item that the fixed log format
    does not contain is reported as [BAD_FORMAT] (this model covers the
    literal, space and the six numeric items only). *)
Fixpoint parse_internal (p : Parsed) (s : ustr) (items : list Item) : result (Parsed * ustr) ParseError :=
  match items with
  | [] => Ok (p, s)
  | item :: rest =>
      match item with
      | Literal prefix | OwnedLiteral prefix =>
          if (length s <? length prefix)%nat then Err TOO_SHORT
          else match strip_prefix prefix s with
               | Some s' => parse_internal p s' rest
               | None => Err INVALID
               end
      | Space _ | OwnedSpace _ => parse_internal p (trim_left s) rest
      | Numeric spec _ =>
          match numeric_width spec with
          | None => Err BAD_FORMAT
          | Some (width, signed) =>
              let s := trim_left s in
              let scanned :=
                if signed then
                  match s with
                  | c :: s' =>
                      if c =? 45 then
                        rbind (number s' None) (fun '(s'', v) => Ok (s'', 0 - v))
                      else if c =? 43 then number s' None
                      else number s (Some width)
                  | [] => number s (Some width)
                  end
                else number s (Some width) in
              rbind scanned (fun '(s', v) =>
                rbind (set_field spec p v) (fun p' => parse_internal p' s' rest))
          end
      | _ => Err BAD_FORMAT
      end
  end.

(** [Parsed::to_naive_date] when only the year, month and day are set. *)
Definition to_naive_date (p : Parsed) : result NaiveDate ParseError :=
  match p_year p, p_month p, p_day p with
  | Some y, Some m, Some d =>
      match from_ymd_opt y m d with Some nd => Ok nd | None => Err OUT_OF_RANGE end
  | _, _, _ => Err NOT_ENOUGH
  end.

(** [Parsed::to_naive_time]; second 60 is a leap second. *)
Definition to_naive_time (p : Parsed) : result NaiveTime ParseError :=
  let hour_div_12 := match p_hour_div_12 p with
                     | Some v => if (0 <=? v) && (v <=? 1) then Ok v else Err OUT_OF_RANGE
                     | None => Ok 0 end in
  let hour_mod_12 := match p_hour_mod_12 p with
                     | Some v => if (0 <=? v) && (v <=? 11) then Ok v else Err OUT_OF_RANGE
                     | None => Ok 0 end in
  rbind hour_div_12 (fun hd => rbind hour_mod_12 (fun hm =>
  let hour := hd * 12 + hm in
  rbind (match p_minute p with
         | Some v => if (0 <=? v) && (v <=? 59) then Ok v else Err OUT_OF_RANGE
         | None => Err NOT_ENOUGH end) (fun minute =>
  rbind (match p_second p with
         | Some v => if (0 <=? v) && (v <=? 60) then Ok v else Err OUT_OF_RANGE
         | None => Ok 0 end) (fun second =>
  let '(second, nano) := if second =? 60 then (59, 1000000000) else (second, 0) in
  match from_hms_nano_opt hour minute second nano with
  | Some t => Ok t
  | None => Err OUT_OF_RANGE
  end)))).

(** [Parsed::to_naive_datetime_with_offset(0)] without a timestamp. *)
Definition to_naive_datetime (p : Parsed) : result NaiveDateTime ParseError :=
  match to_naive_date p, to_naive_time p with
  | Ok d, Ok t => Ok (mkDateTime d t)
  | Err e, _ => Err e
  | _, Err e => Err e
  end.

(** [NaiveDateTime::parse_from_str(s, fmt)] *)
Definition parse_from_str (s fmt : ustr) : result NaiveDateTime ParseError :=
  rbind (parse_internal parsed_empty s (StrftimeItems fmt)) (fun '(p, rest) =>
    match rest with
    | [] => to_naive_datetime p
    | _ => Err TOO_LONG
    end).

End Parse.

(** ** The file system, as the program sees it through [std::fs]

    A path is a string of scalar values; a file has its contents and its
    creation and last-write times in FILETIME ticks (100 ns since 1601).
    The environment is fixed for the run: the files some other process
    holds open ([locked]), the operations the system refuses
    ([fault], by operation and path), the volume of each path, the local
    offset at each instant, the clock, and what [GetLastError] reports. *)
Module World.

Abbreviation path := ustr.

Record file : Set := mkFile {
  contents : list Byte.byte;
  creation_time : Z;
  last_write_time : Z }.

Record FileSystem : Type := mkFS { files : gmap path file; dirs : gset path }.

Inductive ErrorKind : Set :=
| NotFound | PermissionDenied | AlreadyExists | InvalidData | UnexpectedEof | Other.

(** [std::io::Error]: its kind and the OS error code, if any. *)
Record io_error : Set := mkError { kind : ErrorKind; raw_os_error : option Z }.

(** The Windows error codes the model raises. *)
Definition ERROR_FILE_NOT_FOUND : io_error := mkError NotFound (Some 2).
Definition ERROR_ACCESS_DENIED : io_error := mkError PermissionDenied (Some 5).
Definition ERROR_SHARING_VIOLATION : io_error := mkError Other (Some 32).
Definition ERROR_FILE_EXISTS : io_error := mkError AlreadyExists (Some 80).
Definition ERROR_ALREADY_EXISTS : io_error := mkError AlreadyExists (Some 183).
Definition ERROR_NOT_SAME_DEVICE : io_error := mkError Other (Some 17).
(** [io::Error::new(kind, msg)] carries no OS code. *)
Definition new_error (k : ErrorKind) : io_error := mkError k None.

Inductive fs_op : Set :=
| OpOpen (p : path)
| OpMetadata (p : path)
| OpRead (p : path)
| OpCreateDirAll (p : path)
| OpCopy (p q : path)
| OpSetFileTime (p : path)
| OpRename (p q : path)
| OpCreateNew (p : path)
| OpIoCopy (p q : path)
| OpFlush (p : path)
| OpRemove (p : path)
| OpReadDir (p : path)
| OpReadDirNext (p : path) (i : nat).

Record Env : Type := mkEnv {
  locked : gset path;
  fault : fs_op -> option io_error;
  volume : path -> Z;
  local_offset : Z -> Z;
  now : Z;
  last_error : io_error }.

(** Lines printed to stdout and stderr. *)
Inductive log_line : Type :=
| LogMatches (p : path)
| LogMayBeUsed (p : path)
| LogExists (p : path)
| LogErrorMoving (p : path) (e : io_error).

(** An outcome: a value, an [io::Error], or a panic. *)
Inductive res (A : Type) : Type :=
| ROk (a : A)
| RErr (e : io_error)
| RPanic.
Arguments ROk {A} a.
Arguments RErr {A} e.
Arguments RPanic {A}.

Definition M (A : Type) : Type := Env -> FileSystem -> res A * FileSystem * list log_line.

Definition ret {A} (a : A) : M A := fun _ fs => (ROk a, fs, []).
Definition fail {A} (e : io_error) : M A := fun _ fs => (RErr e, fs, []).
Definition panic {A} : M A := fun _ fs => (RPanic, fs, []).

(** [?]: an error or a panic ends the function. *)
Definition bind {A B} (m : M A) (k : A -> M B) : M B :=
  fun env fs =>
    match m env fs with
    | (ROk a, fs1, l1) => let '(r, fs2, l2) := k a env fs1 in (r, fs2, l1 ++ l2)
    | (RErr e, fs1, l1) => (RErr e, fs1, l1)
    | (RPanic, fs1, l1) => (RPanic, fs1, l1)
    end.

(** Matching on an [io::Result] instead of propagating it. *)
Definition attempt {A} (m : M A) : M (result A io_error) :=
  fun env fs =>
    match m env fs with
    | (ROk a, fs1, l1) => (ROk (Ok a), fs1, l1)
    | (RErr e, fs1, l1) => (ROk (Err e), fs1, l1)
    | (RPanic, fs1, l1) => (RPanic, fs1, l1)
    end.

Definition log (l : log_line) : M unit := fun _ fs => (ROk tt, fs, [l]).
Definition get_env : M Env := fun env fs => (ROk env, fs, []).

#[global] Instance M_ret : MRet M := fun A a => ret a.

Declare Scope io_scope.
Delimit Scope io_scope with io.
Notation "x <- m ;; k" := (bind m (fun x => k))
  (at level 100, m at level 99, k at level 200, right associativity) : io_scope.
Notation "m ;; k" := (bind m (fun _ => k))
  (at level 100, k at level 200, right associativity) : io_scope.
Open Scope io_scope.

(** The system call behind [op], failing first with the fault the
    environment sets for it. *)
Definition syscall {A} (op : fs_op) (body : Env -> FileSystem -> res A * FileSystem) : M A :=
  fun env fs =>
    match fault env op with
    | Some e => (RErr e, fs, [])
    | None => let '(r, fs') := body env fs in (r, fs', [])
    end.

Definition is_file (fs : FileSystem) (p : path) : bool := bool_decide (is_Some (files fs !! p)).
Definition is_dir (fs : FileSystem) (p : path) : bool := bool_decide (p ∈ dirs fs).

(** A handle on an open file; the file it names. *)
Abbreviation handle := path.

(** [File::options().read(true).write(true).open(p)]: refused while
    another process holds the file. *)
Definition open_rw (p : path) : M handle :=
  syscall (OpOpen p) (fun env fs =>
    if is_dir fs p then (RErr ERROR_ACCESS_DENIED, fs)
    else if negb (is_file fs p) then (RErr ERROR_FILE_NOT_FOUND, fs)
    else if bool_decide (p ∈ locked env) then (RErr ERROR_SHARING_VIOLATION, fs)
    else (ROk p, fs)).

(** [File::open(p)] (read only, which the holder of a log file shares). *)
Definition open_read (p : path) : M handle :=
  syscall (OpOpen p) (fun _ fs =>
    if is_dir fs p then (RErr ERROR_ACCESS_DENIED, fs)
    else if negb (is_file fs p) then (RErr ERROR_FILE_NOT_FOUND, fs)
    else (ROk p, fs)).

(** [file.metadata()]: creation and last-write times. *)
Definition metadata (h : handle) : M (Z * Z) :=
  syscall (OpMetadata h) (fun _ fs =>
    match files fs !! h with
    | Some f => (ROk (creation_time f, last_write_time f), fs)
    | None => (RErr ERROR_FILE_NOT_FOUND, fs)
    end).

(** [file.read_exact(&mut [0; n])] on a freshly opened file. *)
Definition read_exact (h : handle) (n : nat) : M (list Byte.byte) :=
  syscall (OpRead h) (fun _ fs =>
    match files fs !! h with
    | Some f =>
        if (length (contents f) <? n)%nat then (RErr (new_error UnexpectedEof), fs)
        else (ROk (firstn n (contents f)), fs)
    | None => (RErr ERROR_FILE_NOT_FOUND, fs)
    end).

(** [fs::create_dir_all(p)] (the parents of [p] are left implicit). *)
Definition create_dir_all (p : path) : M unit :=
  syscall (OpCreateDirAll p) (fun _ fs =>
    if is_dir fs p then (ROk tt, fs)
    else if is_file fs p then (RErr ERROR_ALREADY_EXISTS, fs)
    else (ROk tt, mkFS (files fs) ({[p]} ∪ dirs fs))).

(** [Path::exists] *)
Definition exists_ (p : path) : M bool :=
  fun _ fs => (ROk (is_file fs p || is_dir fs p), fs, []).

(** [fs::copy(p, q)]: [CopyFileEx], which gives the copy the contents
    and last-write time of [p] and creates it now. *)
Definition copy (p q : path) : M unit :=
  syscall (OpCopy p q) (fun env fs =>
    match files fs !! p with
    | None => (RErr ERROR_FILE_NOT_FOUND, fs)
    | Some f =>
        if is_dir fs q then (RErr ERROR_ACCESS_DENIED, fs)
        else (ROk tt, mkFS (<[q := mkFile (contents f) (now env) (last_write_time f)]> (files fs))
                          (dirs fs))
    end).

(** A raw Win32 [HANDLE]: the file it was opened on, whether it was
    opened with write access, and whether it is still open. *)
Record raw_handle : Set := mkRawHandle { raw_file : path; raw_writable : bool; raw_open : bool }.

(** [File::open(p)?.as_raw_handle()] in a [let] statement: the [File] is
    opened read only, and as a temporary it is dropped, closing the
    handle, at the end of the statement. *)
Definition temporary_raw_handle (h : handle) : raw_handle := mkRawHandle h false false.

(** [SetFileTime(handle, Some(ctime), None, Some(mtime))]: the Win32
    [BOOL], true on success.  A closed handle ([ERROR_INVALID_HANDLE]) or
    one without write access ([ERROR_ACCESS_DENIED]) makes it fail. *)
Definition set_file_time (h : raw_handle) (ctime mtime : Z) : M bool :=
  fun env fs =>
    if negb (raw_open h) || negb (raw_writable h) then (ROk false, fs, [])
    else match fault env (OpSetFileTime (raw_file h)), files fs !! raw_file h with
    | None, Some f =>
        (ROk true, mkFS (<[raw_file h := mkFile (contents f) ctime mtime]> (files fs)) (dirs fs), [])
    | _, _ => (ROk false, fs, [])
    end.

(** [io::Error::last_os_error()] *)
Definition last_os_error : M io_error := fun env fs => (ROk (last_error env), fs, []).

(** [fs::rename(p, q)]: [MoveFileEx] without [MOVEFILE_COPY_ALLOWED],
    which replaces an existing file and refuses to cross volumes. *)
Definition rename (p q : path) : M unit :=
  syscall (OpRename p q) (fun env fs =>
    match files fs !! p with
    | None => (RErr ERROR_FILE_NOT_FOUND, fs)
    | Some f =>
        if negb (volume env p =? volume env q) then (RErr ERROR_NOT_SAME_DEVICE, fs)
        else if is_dir fs q then (RErr ERROR_ACCESS_DENIED, fs)
        else (ROk tt, mkFS (<[q := f]> (delete p (files fs))) (dirs fs))
    end).

(** [File::options().create_new(true).write(true).open(q)] *)
Definition open_create_new (q : path) : M handle :=
  syscall (OpCreateNew q) (fun env fs =>
    if is_file fs q || is_dir fs q then (RErr ERROR_FILE_EXISTS, fs)
    else (ROk q, mkFS (<[q := mkFile [] (now env) (now env)]> (files fs)) (dirs fs))).

(** [io::copy(&mut from, &mut to)] from the start of [from] into the
    empty [to]. *)
Definition io_copy (from to : handle) : M unit :=
  syscall (OpIoCopy from to) (fun env fs =>
    match files fs !! from, files fs !! to with
    | Some f, Some g =>
        (ROk tt, mkFS (<[to := mkFile (contents f) (creation_time g) (now env)]> (files fs))
                      (dirs fs))
    | _, _ => (RErr ERROR_FILE_NOT_FOUND, fs)
    end).

(** [to.flush()] *)
Definition flush (h : handle) : M unit := syscall (OpFlush h) (fun _ fs => (ROk tt, fs)).

(** [fs::remove_file(p)] *)
Definition remove_file (p : path) : M unit :=
  syscall (OpRemove p) (fun _ fs =>
    if is_file fs p then (ROk tt, mkFS (delete p (files fs)) (dirs fs))
    else (RErr ERROR_FILE_NOT_FOUND, fs)).

(** *** Paths ([std::path] on Windows) *)

Definition is_sep (c : Z) : bool := (c =? 92) || (c =? 47).
Definition is_ascii_letter (c : Z) : bool := ((65 <=? c) && (c <=? 90)) || ((97 <=? c) && (c <=? 122)).

(** A drive prefix such as [C:]; verbatim and UNC prefixes are not
    modelled. *)
Definition has_drive (p : path) : bool :=
  match p with c :: d :: _ => is_ascii_letter c && (d =? 58) | _ => false end.
Definition drive_of (p : path) : path := if has_drive p then take 2 p else [].

(** The directory with the separator [PathBuf::push] inserts. *)
Definition dir_prefix (p : path) : path :=
  match last p with
  | Some c => if is_sep c then p else p ++ [92]
  | None => p
  end.

(** [dir.join(name)]: a name with a drive replaces the directory, a name
    starting at the root keeps only the directory's drive. *)
Definition join (dir name : path) : path :=
  if has_drive name then name
  else match name with
       | c :: _ => if is_sep c then drive_of dir ++ name else dir_prefix dir ++ name
       | [] => dir_prefix dir
       end.

(** The file name of [k] when [k] is an entry of [dir]: what remains after
    the directory, non-empty, with no separator and no [:]. *)
Definition entry_name (dir k : path) : option path :=
  match Parse.strip_prefix (dir_prefix dir) k with
  | Some n => if bool_decide (n <> []) && forallb (fun c => negb (is_sep c || (c =? 58))) n
              then Some n else None
  | None => None
  end.

(** [fs::read_dir(dir)] and the items its iterator yields: the file names
    of the entries (files and directories), read at once, where the
    [i]-th call of [next] fails with the fault set for it. *)
Definition read_dir (dir : path) : M (list (result path io_error)) :=
  syscall (OpReadDir dir) (fun env fs =>
    if is_dir fs dir then
      (ROk (imap (fun i n => match fault env (OpReadDirNext dir i) with
                             | Some e => Err e
                             | None => Ok n
                             end)
                 (omap (entry_name dir) (elements (dom (files fs) ∪ dirs fs)))), fs)
    else (RErr ERROR_FILE_NOT_FOUND, fs)).

End World.

(** ** main.rs *)
Module Program.
Import World Matching Regex Parse Calendar.

(** The parts of [ConfigFile] that [rename_main] reads. *)
Record Source : Type := mkSource {
  source_folder : path; source_pattern : regex; keep_old : bool }.
Record Output : Type := mkOutput {
  output_folder : path; output_pattern : list Item; utc_time : bool; file_ctime : bool }.
Record ConfigFile : Type := mkConfig { source : Source; output : Output }.

(** FILETIME ticks at the Unix epoch. *)
Definition UNIX_EPOCH_TICKS : Z := 116444736000000000.

(** [DateTime::<Local>::from(SystemTime)] for a FILETIME: the UTC
    date-time and the local one, at the offset of that instant. *)
Definition date_time_of_filetime (env : Env) (ticks : Z) : DateTimeUtc * NaiveDateTime :=
  let d := ticks - UNIX_EPOCH_TICKS in
  let secs := d / 10000000 in
  let nanos := (d mod 10000000) * 100 in
  (mkUtc (from_timestamp secs nanos), from_timestamp (secs + local_offset env secs) nanos).

Definition LOG_TIME_FORMAT : ustr := u "%Y.%m.%d %H:%M:%S".

(** [assume_launch_time]: the errors are [InvalidData] ("invalid utf8",
    "invalid VRC log"). *)
Definition assume_launch_time (f : handle) : M (option DateTimeUtc * NaiveDateTime) :=
  buffer <- read_exact f 19;;
  match Utf8.from_utf8 buffer with
  | None => fail (new_error InvalidData)
  | Some str =>
      match parse_from_str str LOG_TIME_FORMAT with
      | Err _ => fail (new_error InvalidData)
      | Ok time_from_log => mret (earliest (and_local_timezone_utc time_from_log), time_from_log)
      end
  end.

Definition CROSSES_DEVICES_OS_CODE : Z := 17.

Definition move_by_copy (from to : path) : M unit :=
  from_file <- open_rw from;;
  to_file <- open_create_new to;;
  io_copy from_file to_file;;
  flush to_file;;
  remove_file from.

Definition move_file (from to : path) : M unit :=
  r <- attempt (rename from to);;
  match r with
  | Ok _ => mret tt
  | Err e =>
      if bool_decide (raw_os_error e = Some CROSSES_DEVICES_OS_CODE) then move_by_copy from to
      else fail e
  end.

(** The closure given to [MatchingIter] (its [println!] is not recorded). *)
Definition regex_resolver (captures : Captures) : resolver := fun name =>
  match split_once 58 name with
  | None => None
  | Some (namespace, name) =>
      if bool_decide (namespace = u "regex") then Some (default [] (Regex.name captures name))
      else None
  end.

(** Lines 149-191 of [move_log_file]: what happens once [dst_path] is known. *)
Definition place_log_file (config : ConfigFile) (p dst_path : path) : M unit :=
  dst_exists <- exists_ dst_path;;
  if dst_exists then log (LogExists dst_path)
  else if keep_old (source config) then
    copy p dst_path;;
    src <- open_read p;;
    md <- metadata src;;
    dst_file <- open_read dst_path;;
    let handle := temporary_raw_handle dst_file in
    success <- set_file_time handle md.1 md.2;;
    if success then e <- last_os_error;; fail e else mret tt
  else move_file p dst_path.

(** Lines 107-147 of [move_log_file]: the lock probe, the launch time and
    the destination path; [None] when the file is skipped. *)
Definition log_destination (config : ConfigFile) (p : path) (captures : Captures) : M (option path) :=
  opened <- attempt (open_rw p);;
  match opened with
  | Err _ => log (LogMayBeUsed p);; mret None
  | Ok file =>
      dates <- (if file_ctime (output config) then
                 times <- metadata file;;
                 env <- get_env;;
                 let dt := date_time_of_filetime env times.1 in
                 mret (Some dt.1, dt.2)
               else assume_launch_time file);;
      create_dir_all (output_folder (output config));;
      let pat_iter := MatchingIter (output_pattern (output config)) (regex_resolver captures) in
      date_format <- (if utc_time (output config) then
                       match dates.1 with
                       | Some utc_date => mret (utc_format_with_items utc_date pat_iter)
                       | None => panic
                       end
                     else mret (naive_format_with_items dates.2 pat_iter));;
      match date_format with
      | Some name => mret (Some (join (output_folder (output config)) name))
      | None => panic
      end
  end.

Definition move_log_file (config : ConfigFile) (p : path) (captures : Captures) : M unit :=
  dst <- log_destination config p captures;;
  match dst with
  | Some dst_path => place_log_file config p dst_path
  | None => mret tt
  end.

(** The loop of [rename_main] over entries of the source folder read
    without error. *)
Fixpoint rename_entries (config : ConfigFile) (entries : list path) : M unit :=
  match entries with
  | [] => mret tt
  | n :: rest =>
      let entry_path := join (source_folder (source config)) n in
      match captures (source_pattern (source config)) n with
      | Some caps =>
          log (LogMatches entry_path);;
          r <- attempt (move_log_file config entry_path caps);;
          match r with
          | Err e => log (LogErrorMoving entry_path e);; rename_entries config rest
          | Ok _ => rename_entries config rest
          end
      | None => rename_entries config rest
      end
  end.

(** The [for] loop of [rename_main] over the [read_dir] iterator:
    [let entry = entry?;] ends it at the first entry that cannot be read,
    and an entry read is handled as in [rename_entries]. *)
Fixpoint rename_loop (config : ConfigFile) (entries : list (result path io_error)) : M unit :=
  match entries with
  | [] => mret tt
  | Err e :: _ => fail e
  | Ok n :: rest => rename_entries config [n];; rename_loop config rest
  end.

Definition rename_main (config : ConfigFile) : M unit :=
  create_dir_all (output_folder (output config));;
  entries <- read_dir (source_folder (source config));;
  rename_loop config entries.

End Program.

(** ** config.rs: reading the configuration file *)
Module Config.
Import World Regex Program.

(** [toml::Value]; a table by its entries (its keys are distinct). *)
#[warnings="-register-all"]
Inductive Value : Type :=
| VString (s : ustr)
| VInteger (i : Z)
| VFloat (bits : Z)
| VBoolean (b : bool)
| VDatetime (text : ustr)
| VArray (a : list Value)
| VTable (t : list (ustr * Value)).

(** [Value::get(key)]: the entry of a table, [None] for any other value. *)
Definition get (v : Value) (key : ustr) : option Value :=
  match v with
  | VTable t => option_map snd (List.find (fun kv => bool_decide (kv.1 = key)) t)
  | _ => None
  end.

(** [Output::read_from_file]'s [TRADITIONAL_DEFAULT] *)
Definition TRADITIONAL_DEFAULT : ustr := u "output_log_%0Y-%0m-%0d_%0H-%0M-%0S.txt".

Section ReadConfig.
(** [Regex::new], [None] for a pattern it rejects. *)
Variable regex_new : ustr -> option regex.
(** [toml::from_str::<Value>], its error already an [io::Error] as [?]
    converts it. *)
Variable toml_from_str : ustr -> result Value io_error.
(** The paths [local_low_appdata_path()] and [config_file_path()]
    return.  Their lookups, which panic when [SHGetKnownFolderPath]
    fails, are not part of this model: [read_config] starts from the
    resolved paths. *)
Variable local_low_appdata_path : path.
Variable config_file_path : path.

(** [Source::read_from_file]: [&mut self] as the [Source] it leaves,
    also when it fails half-way. *)
Definition Source_read_from_file (toml : Value) (self : Source) : Source * result unit io_error :=
  let self := match get toml (u "folder") with
              | Some (VString str) => mkSource str (source_pattern self) (keep_old self)
              | _ => self
              end in
  let rest (self : Source) :=
    match get toml (u "keep_old") with
    | Some (VBoolean b) => (mkSource (source_folder self) (source_pattern self) b, Ok tt)
    | _ => (self, Ok tt)
    end in
  match get toml (u "pattern") with
  | Some (VString str) =>
      match regex_new str with
      | Some r => rest (mkSource (source_folder self) r (keep_old self))
      | None => (self, Err (new_error InvalidData))
      end
  | _ => rest self
  end.

(** [Output::read_from_file] *)
Definition Output_read_from_file (toml : Value) (self : Output) : Output * result unit io_error :=
  let self := match get toml (u "folder") with
              | Some (VString str) => mkOutput str (output_pattern self) (utc_time self) (file_ctime self)
              | _ => self
              end in
  let rest (self : Output) :=
    let self := match get toml (u "utc_time") with
                | Some (VBoolean b) => mkOutput (output_folder self) (output_pattern self) b (file_ctime self)
                | _ => self
                end in
    match get toml (u "file_ctime") with
    | Some (VBoolean b) => (mkOutput (output_folder self) (output_pattern self) (utc_time self) b, Ok tt)
    | _ => (self, Ok tt)
    end in
  match get toml (u "pattern") with
  | Some (VString str) =>
      if bool_decide (str <> TRADITIONAL_DEFAULT) then
        match parse_pattern str with
        | Some pattern => rest (mkOutput (output_folder self) pattern (utc_time self) (file_ctime self))
        | None => (self, Err (new_error InvalidData))
        end
      else rest self
  | _ => rest self
  end.

(** [ConfigFile::read_from_file] *)
Definition ConfigFile_read_from_file (toml : Value) (self : ConfigFile) : ConfigFile * result unit io_error :=
  let '(self, r) := match get toml (u "source") with
                    | Some source =>
                        let '(s, r) := Source_read_from_file source (Program.source self) in
                        (mkConfig s (output self), r)
                    | None => (self, Ok tt)
                    end in
  match r with
  | Err e => (self, Err e)
  | Ok _ =>
      match get toml (u "output") with
      | Some output =>
          let '(o, r) := Output_read_from_file output (Program.output self) in
          (mkConfig (Program.source self) o, r)
      | None => (self, Ok tt)
      end
  end.

(** [Source::default()] *)
Definition Source_default : Source :=
  mkSource (join (join local_low_appdata_path (u "VRChat")) (u "VRChat")) default_pattern true.

(** [Output::default()] *)
Definition Output_default : Output :=
  mkOutput (join (join (join local_low_appdata_path (u "VRChat")) (u "VRChat")) (u "logs"))
           (StrftimeItems (u "output_log_%Y-%m-%d_%H-%M-%S{regex:in_sec_num}.txt")) false false.

(** [ConfigFile::default()] *)
Definition ConfigFile_default : ConfigFile := mkConfig Source_default Output_default.

(** [fs::read_to_string(p)]: the file's contents, which must be UTF-8. *)
Definition read_to_string (p : path) : M ustr :=
  h <- open_read p;;
  syscall (OpRead h) (fun _ fs =>
    match files fs !! h with
    | Some f =>
        match Utf8.from_utf8 (contents f) with
        | Some s => (ROk s, fs)
        | None => (RErr (new_error InvalidData), fs)
        end
    | None => (RErr ERROR_FILE_NOT_FOUND, fs)
    end).

(** [read_config] *)
Definition read_config : M ConfigFile :=
  r <- attempt (read_to_string config_file_path);;
  match r with
  | Ok toml =>
      match toml_from_str toml with
      | Err e => fail e
      | Ok v =>
          match ConfigFile_read_from_file v ConfigFile_default with
          | (_, Err e) => fail e
          | (config, Ok _) => mret config
          end
      end
  | Err e => match kind e with NotFound => mret ConfigFile_default | _ => fail e end
  end.

End ReadConfig.
End Config.

(** ** Descriptions used in the statements

    These follow the wording of the properties, to be compared with the
    definitions above. *)
Module Reference.
Import Chrono Calendar Matching World Program.

(** The items a template must not contain: a malformed specifier, an
    internal numeric field, an internal fixed field other than the 3, 6
    and 9 digit fractions, or the offsets [%z] and [%#z]. *)
Definition rejected_item (it : Item) : bool :=
  match it with
  | Error => true
  | Numeric (Numeric.Internal _) _ => true
  | Fixed (Fixed.Internal i) =>
      match format_internal_format i with None => true | Some _ => false end
  | Fixed Fixed.TimezoneOffset | Fixed Fixed.TimezoneOffsetZ => true
  | _ => false
  end.

(** How a literal is rendered, read left to right: a character other
    than [{] is copied; [{] up to the first [}] after it is a placeholder,
    replaced by the resolver's value or else copied with its braces; a
    [{] with no [}] after it starts text that is copied to the end. *)
Inductive rendered (f : resolver) : ustr -> ustr -> Prop :=
| rendered_nil : rendered f [] []
| rendered_char c s o :
    c <> LBRACE -> rendered f s o -> rendered f (c :: s) (c :: o)
| rendered_placeholder name s o :
    ~ In RBRACE name -> rendered f s o ->
    rendered f (LBRACE :: name ++ RBRACE :: s)
             (default (LBRACE :: name ++ [RBRACE]) (f name) ++ o)
| rendered_unterminated s :
    ~ In RBRACE s -> rendered f (LBRACE :: s) (LBRACE :: s).

(** The text of a literal item. *)
Definition literal_text (it : Item) : option ustr :=
  match it with
  | Literal s | OwnedLiteral s => Some s
  | _ => None
  end.

(** An item and the item rendered from it. *)
Definition item_rendered (f : resolver) (it it' : Item) : Prop :=
  match literal_text it with
  | Some s => exists o, literal_text it' = Some o /\ rendered f s o
  | None => it' = it
  end.

(** The bytes of an ASCII string. *)
Definition ascii_bytes (s : string) : list Byte.byte :=
  map Ascii.byte_of_ascii (list_ascii_of_string s).

(** The launch line of the example log and the date-time it names. *)
Definition example_log_prefix : list Byte.byte := ascii_bytes "2022.10.14 20:15:30".
Definition example_launch : NaiveDateTime :=
  mkDateTime (mkDate 2022 10 14) (mkTime 20 15 30 0).


(** [p] names a file or a directory. *)
Definition path_exists (fs : FileSystem) (p : path) : bool := is_file fs p || is_dir fs p.

End Reference.

(** ** Frames of the proofs *)
Module Frames.
Import World Program.

(** Every file other than [dst] and [p] is as it was. *)
Definition outside (dst p : path) (fs fs' : FileSystem) : Prop :=
  forall q, q <> dst -> q <> p -> files fs' !! q = files fs !! q.

(** No directory disappears. *)
Definition dirs_grow (fs fs' : FileSystem) : Prop := dirs fs ⊆ dirs fs'.

(** A log line other than the [matches] announcement. *)
Definition not_matches (x : log_line) : Prop := match x with LogMatches _ => False | _ => True end.

End Frames.

(** ** A small world to run the program on *)
Module Examples.
Import Chrono Regex World Program Config.

#[global] Instance fs_op_eq_dec : EqDecision fs_op.
Proof. solve_decision. Defined.

Definition source_dir : path := u "C:\VRChat".
Definition output_dir : path := u "C:\VRChat\logs".
Definition log_name : path := u "output_log_20-15-30.txt".
Definition log_path : path := join source_dir log_name.

(** [Output::pattern_default] *)
Definition default_output_pattern : list Item :=
  StrftimeItems (u "output_log_%Y-%m-%d_%H-%M-%S{regex:in_sec_num}.txt").

Definition config (keep : bool) : ConfigFile :=
  mkConfig (mkSource source_dir default_pattern keep)
           (mkOutput output_dir default_output_pattern false false).

(** An environment in which [p] is refused with [e] for the operations
    [ops]; one volume, UTC, the clock at 0. *)
Definition env (locked : gset path) (ops : list fs_op) (e : io_error) : Env :=
  mkEnv locked (fun op => if decide (op ∈ ops) then Some e else None)
        (fun _ => 0) (fun _ => 0) 0 ERROR_ACCESS_DENIED.

(** The source folder holding one log file with contents [bs]. *)
Definition world (bs : list Byte.byte) : FileSystem :=
  mkFS {[ log_path := mkFile bs 7 8 ]} {[ source_dir ]}.

Definition log_contents : list Byte.byte :=
  Reference.example_log_prefix ++ Reference.ascii_bytes " Log        -  start".

(** A move to another volume, whose rename fails with
    [ERROR_NOT_SAME_DEVICE]. *)
Definition other_volume_dst : path := u "D:\\logs\\output_log.txt".
Definition cross_volume_env : Env :=
  env ∅ [OpRename log_path other_volume_dst] ERROR_NOT_SAME_DEVICE.

(** The destination of the example log under [default_output_pattern],
    the captures of its name, and an environment with no faults. *)
Definition example_dst : path := join output_dir (u "output_log_2022-10-14_20-15-30.txt").
Definition log_caps : Captures := default (mkCaptures [] []) (captures default_pattern log_name).
Definition plain_env : Env := env ∅ [] ERROR_ACCESS_DENIED.

(** The source and output folders after a first pass keeping the logs. *)
Definition kept_world : FileSystem :=
  (rename_entries (config true) [log_name] plain_env (world log_contents)).1.2.

(** A log file too short for its launch time, and a file system with no
    folders at all. *)
Definition short_contents : list Byte.byte := Reference.ascii_bytes "2022.10.14".
Definition empty_world : FileSystem := mkFS ∅ ∅.

(** A configuration file and the [LocalLow] folder; a TOML reader that
    gives one [output] table with a pattern of its own. *)
Definition config_path : path := u "C:\Users\me\AppData\LocalLow\vrc-log-renamer\config.toml".
Definition local_low : path := u "C:\Users\me\AppData\LocalLow".
Definition no_regex : ustr -> option regex := fun _ => None.
Definition output_toml : Value :=
  VTable [(u "output", VTable [(u "pattern", VString (u "%0Y-%0m-%0d_{regex:in_sec_num}.txt"));
                              (u "utc_time", VBoolean true)])].
Definition toml_output : ustr -> result Value io_error := fun _ => Ok output_toml.
Definition traditional_toml : Value :=
  VTable [(u "pattern", VString TRADITIONAL_DEFAULT); (u "utc_time", VBoolean true)].
Definition config_world : FileSystem :=
  mkFS {[ config_path := mkFile (Reference.ascii_bytes "[output]") 0 0 ]} ∅.

(** The configuration read from [config_world]. *)
Definition read_example : ConfigFile :=
  match (read_config no_regex toml_output local_low config_path plain_env config_world).1.1 with
  | ROk c => c
  | _ => ConfigFile_default local_low
  end.

End Examples.

(** * Properties *)
Import Chrono Calendar Matching Regex World Program Config Frames Reference Examples.

(** ** Templates *)

(** C1: the template [%0U] (Sunday-based week number, zero padded) is
    accepted, but serializing the parsed template gives [%0w] (the
    weekday number from Sunday), and [%0W] comes back as [%0u]: the
    template does not survive the round trip. *)
Theorem pattern_to_string_swaps_week_letters :
  option_map pattern_to_string (parse_pattern (u "%0U")) = Some (Ok (u "%0w")) /\
  option_map pattern_to_string (parse_pattern (u "%0W")) = Some (Ok (u "%0u")).
Proof. split; vm_compute; reflexivity. Qed.

Lemma is_error_own_strftime (it : Item) : is_error (own_strftime it) = rejected_item it.
Proof.
  destruct it as [| | | |n p|f|]; try reflexivity.
  - destruct n; reflexivity.
  - destruct f as [| | | | | | | | | | | | | | | | |i]; try reflexivity.
    unfold own_strftime, rejected_item.
    destruct (format_internal_format i) eqn:E.
    + rewrite bool_decide_true by congruence. reflexivity.
    + rewrite bool_decide_false by congruence. reflexivity.
Qed.

Lemma existsb_is_error_map (l : list Item) :
  existsb is_error (map own_strftime l) = existsb rejected_item l.
Proof.
  induction l as [|it l IH]; [reflexivity|].
  simpl. rewrite is_error_own_strftime, IH. reflexivity.
Qed.

(** C4: [parse_pattern t] fails exactly when the items of [t] contain a
    rejected one (a malformed specifier, an internal field other than
    the 3/6/9-digit fractions, [%z] or [%#z]); when it succeeds it keeps
    every item, converted by [own_strftime]. *)
Theorem parse_pattern_all_or_nothing (t : ustr) :
  (parse_pattern t = None <-> existsb rejected_item (StrftimeItems t) = true) /\
  (forall s, parse_pattern t = Some s -> s = map own_strftime (StrftimeItems t)).
Proof.
  unfold parse_pattern. rewrite existsb_is_error_map.
  destruct (existsb rejected_item (StrftimeItems t)); split.
  - split; reflexivity.
  - discriminate.
  - split; discriminate.
  - intros s H. injection H as <-. reflexivity.
Qed.

Lemma parse_pattern_all_or_nothing_witness :
  existsb rejected_item (StrftimeItems (u "log_%Y%z.txt")) = true /\
  parse_pattern (u "log_%Y%z.txt") = None /\
  exists s, parse_pattern (u "log_%Y.txt") = Some s /\
            s = map own_strftime (StrftimeItems (u "log_%Y.txt")).
Proof.
  split; [vm_compute; reflexivity|]. split.
  - apply (proj1 (parse_pattern_all_or_nothing (u "log_%Y%z.txt"))). vm_compute. reflexivity.
  - eexists. split; [vm_compute; reflexivity|].
    apply (proj2 (parse_pattern_all_or_nothing (u "log_%Y.txt"))). vm_compute. reflexivity.
Defined.

(** ** Placeholders in literals *)

Lemma find_some (c : Z) (s : ustr) (i : nat) :
  find c s = Some i ->
  exists pre post, s = pre ++ c :: post /\ i = length pre /\ ~ In c pre.
Proof.
  revert i. induction s as [|x s IH]; simpl; intros i H; [discriminate|].
  destruct (Z.eqb_spec x c) as [->|Hx].
  - injection H as <-. exists [], s. simpl. auto.
  - destruct (find c s) as [j|] eqn:E; simpl in H; [|discriminate].
    injection H as <-. destruct (IH j eq_refl) as (pre & post & -> & -> & Hn).
    exists (x :: pre), post. simpl. split; [reflexivity|]. split; [reflexivity|].
    intros [Hc|Hc]; [congruence|contradiction].
Qed.

Lemma find_none (c : Z) (s : ustr) : find c s = None -> ~ In c s.
Proof.
  induction s as [|x s IH]; simpl; [auto|].
  destruct (Z.eqb_spec x c); [discriminate|].
  destruct (find c s); simpl; [discriminate|].
  intros _ [Hc|Hc]; [congruence|]. apply IH; auto.
Qed.

Lemma rendered_prefix (f : resolver) (pre s o : ustr) :
  ~ In LBRACE pre -> rendered f s o -> rendered f (pre ++ s) (pre ++ o).
Proof.
  induction pre as [|c pre IH]; simpl; intros Hn Hr; [exact Hr|].
  apply rendered_char; auto.
Qed.

Lemma rendered_text (f : resolver) (s : ustr) : ~ In LBRACE s -> rendered f s s.
Proof.
  intros Hn. rewrite <- (app_nil_r s). apply rendered_prefix; [exact Hn|constructor].
Qed.

Lemma take_through {A} (l k : list A) (c : A) : take (S (length l)) (l ++ c :: k) = l ++ [c].
Proof. induction l as [|x l IH]; simpl; [reflexivity|]. rewrite IH. reflexivity. Qed.

Lemma drop_through {A} (l k : list A) (c : A) : drop (S (length l)) (l ++ c :: k) = k.
Proof. induction l as [|x l IH]; simpl; [reflexivity|]. exact IH. Qed.

(** Every round of [loops] renders a prefix of [pat]: what it has built
    and what remains together render [pat]. *)
Lemma loops_rendered (f : resolver) (fuel : nat) (pat builder : ustr) :
  (length pat < fuel)%nat ->
  exists o, (loops fuel f pat builder).2 ++ (loops fuel f pat builder).1 = builder ++ o /\
            rendered f pat o.
Proof.
  revert pat builder. induction fuel as [|fuel IH]; intros pat builder Hlen; [lia|].
  simpl. destruct (find LBRACE pat) as [i|] eqn:E1.
  - destruct (find_some _ _ _ E1) as (pre & rest & -> & -> & Hpre).
    rewrite take_app_length, drop_app_length. simpl.
    destruct (find RBRACE rest) as [j|] eqn:E2; simpl.
    + destruct (find_some _ _ _ E2) as (name & post & -> & -> & Hname).
      rewrite take_through, drop_through, drop_0.
      rewrite length_app. cbn [length]. rewrite Nat.add_sub, take_app_length.
      rewrite length_app in Hlen. simpl in Hlen. rewrite length_app in Hlen. simpl in Hlen.
      destruct (IH post ((builder ++ pre) ++ default (LBRACE :: name ++ [RBRACE]) (f name)))
        as (o & Ho & Hr); [lia|].
      exists (pre ++ default (LBRACE :: name ++ [RBRACE]) (f name) ++ o). split.
      * rewrite Ho. rewrite <- !app_assoc. reflexivity.
      * apply rendered_prefix; [exact Hpre|]. apply rendered_placeholder; auto.
    + exists (pre ++ LBRACE :: rest). split.
      * rewrite <- app_assoc. reflexivity.
      * apply rendered_prefix; [exact Hpre|]. apply rendered_unterminated. apply find_none; exact E2.
  - exists pat. split; [reflexivity|]. apply rendered_text, find_none; exact E1.
Qed.

Lemma loops_length (f : resolver) (fuel : nat) (pat builder : ustr) :
  (length (loops fuel f pat builder).1 <= length pat)%nat.
Proof.
  revert pat builder. induction fuel as [|fuel IH]; intros pat builder; simpl; [lia|].
  destruct (find LBRACE pat) as [i|] eqn:E1; simpl; [|lia].
  destruct (find_some _ _ _ E1) as (pre & rest & -> & -> & _).
  rewrite take_app_length, drop_app_length. simpl.
  destruct (find RBRACE rest) as [j|] eqn:E2; simpl.
  - destruct (find_some _ _ _ E2) as (name & post & -> & -> & _).
    rewrite drop_through. etransitivity; [apply IH|].
    rewrite !length_app. simpl. rewrite length_app. simpl. lia.
  - rewrite length_app. simpl. lia.
Qed.

(** [loops] either leaves [pat] and [builder] as they were, or consumes
    part of [pat]. *)
Lemma loops_shape (f : resolver) (fuel : nat) (pat builder : ustr) :
  ((loops fuel f pat builder).1 = pat /\ (loops fuel f pat builder).2 = builder) \/
  (length (loops fuel f pat builder).1 < length pat)%nat.
Proof.
  destruct fuel as [|fuel]; simpl; [left; auto|].
  destruct (find LBRACE pat) as [i|] eqn:E1; simpl; [|left; auto].
  destruct (find_some _ _ _ E1) as (pre & rest & -> & -> & _).
  rewrite take_app_length, drop_app_length. simpl.
  destruct (find RBRACE rest) as [j|] eqn:E2; simpl.
  - destruct (find_some _ _ _ E2) as (name & post & -> & -> & _).
    right. rewrite drop_through.
    eapply Nat.le_lt_trans; [apply loops_length|].
    rewrite !length_app. simpl. rewrite length_app. simpl. lia.
  - destruct pre as [|c pre].
    + left. simpl. rewrite app_nil_r. auto.
    + right. simpl. rewrite length_app. simpl. lia.
Qed.

(** [process_lit f s] renders [s]; [None] stands for [s] itself. *)
Lemma process_lit_rendered (f : resolver) (s : ustr) :
  rendered f s (default s (process_lit f s)).
Proof.
  unfold process_lit.
  destruct (loops_rendered f (S (length s)) s [] ltac:(lia)) as (o & Ho & Hr).
  pose proof (loops_shape f (S (length s)) s []) as Hshape.
  destruct (loops (S (length s)) f s []) as [pat builder]. simpl in *.
  destruct (Nat.eqb_spec (length s) (length pat)) as [Heq|Hne]; simpl.
  - destruct Hshape as [[-> ->]|Hlt]; [|lia].
    simpl in Ho. subst o. exact Hr.
  - rewrite Ho. exact Hr.
Qed.

(** C3 (as the code has it): whatever the resolver, every item of the
    output template is rendered: a literal comes out as the rendering of
    its text (a placeholder runs from a [{] to the first [}] after it and
    becomes the resolver's value, or stays as written with its braces
    when the resolver gives [None]; text from a [{] with no [}] after it
    stays as written), and every other item is passed on unchanged. *)
Theorem MatchingIter_rendered (f : resolver) (items : list Item) :
  Forall2 (item_rendered f) items (MatchingIter items f).
Proof.
  unfold MatchingIter. induction items as [|it items IH]; simpl; constructor; [|exact IH].
  unfold item_rendered, matching_item.
  destruct it as [s|s| | | | |]; simpl; try reflexivity;
    pose proof (process_lit_rendered f s) as Hr;
    destruct (process_lit f s) as [o|]; simpl in *; eexists; split; eauto.
Qed.

(** C3: a placeholder that follows another [{] is not replaced, though
    the resolver has a value for it: in [{{regex:in_sec_num}] the text
    up to the first [}] is the name [{regex:in_sec_num], which is no
    placeholder of the [regex] namespace.  Nor does every accepted
    template render: [%Z] is accepted, but the naive local date-time has
    no zone name, formatting fails and [format!] panics. *)
Lemma nested_brace_not_replaced :
  let resolve := regex_resolver (default (mkCaptures [] []) (captures example_pattern (u "output_log_5.txt"))) in
  resolve (u "regex:in_sec_num") = Some (u "5") /\
  MatchingIter [Literal (u "{{regex:in_sec_num}")] resolve = [OwnedLiteral (u "{{regex:in_sec_num}")] /\
  parse_pattern (u "%Z") = Some [Fixed Fixed.TimezoneName] /\
  naive_format_with_items example_launch (MatchingIter [Fixed Fixed.TimezoneName] resolve) = None.
Proof. vm_compute. repeat split. Qed.

(** ** Named captures *)

Lemma split_once_regex (n : ustr) : split_once 58 (u "regex:" ++ n) = Some (u "regex", n).
Proof. reflexivity. Qed.

(** C7: with the source pattern [^output_log_(?P<in_sec_num>\d+)?\.txt$],
    [{regex:in_sec_num}] resolves to ["5"] for [output_log_5.txt] and to
    [""] for [output_log_.txt], where the group takes no part in the
    match; [output_log.txt] does not match at all (the [_] is required),
    so that file is not processed.  For any matched name, a
    [regex:] placeholder always resolves, to [""] when the group is
    absent. *)
Theorem in_sec_num_resolution :
  option_map (fun c => regex_resolver c (u "regex:in_sec_num"))
    (captures example_pattern (u "output_log_5.txt")) = Some (Some (u "5")) /\
  option_map (fun c => regex_resolver c (u "regex:in_sec_num"))
    (captures example_pattern (u "output_log_.txt")) = Some (Some []) /\
  captures example_pattern (u "output_log.txt") = None /\
  (forall c n, regex_resolver c (u "regex:" ++ n) = Some (default [] (Regex.name c n))).
Proof.
  split; [vm_compute; reflexivity|]. split; [vm_compute; reflexivity|].
  split; [vm_compute; reflexivity|].
  intros c n. unfold regex_resolver. rewrite split_once_regex.
  rewrite bool_decide_true by reflexivity. reflexivity.
Qed.

(** C7: the file name [output_log.txt] is not matched by the source
    pattern, so no capture, empty or not, is ever resolved for it. *)
Lemma output_log_txt_unmatched :
  captures example_pattern (u "output_log.txt") = None /\
  captures example_pattern (u "output_log_5.txt") <> None.
Proof. split; vm_compute; [reflexivity | discriminate]. Qed.

(** ** Running the program *)

Section Run.
Context {A B : Type} (m : M A) (k : A -> M B) (env : Env) (fs : FileSystem).

Lemma bind_ROk a fs1 l1 :
  m env fs = (ROk a, fs1, l1) ->
  bind m k env fs = (let '(r, fs2, l2) := k a env fs1 in (r, fs2, l1 ++ l2)).
Proof. intros H. unfold bind. rewrite H. reflexivity. Qed.

Lemma bind_RErr e fs1 l1 : m env fs = (RErr e, fs1, l1) -> bind m k env fs = (RErr e, fs1, l1).
Proof. intros H. unfold bind. rewrite H. reflexivity. Qed.

Lemma bind_RPanic fs1 l1 : m env fs = (RPanic, fs1, l1) -> bind m k env fs = (RPanic, fs1, l1).
Proof. intros H. unfold bind. rewrite H. reflexivity. Qed.

Lemma attempt_ROk a fs1 l1 : m env fs = (ROk a, fs1, l1) -> attempt m env fs = (ROk (Ok a), fs1, l1).
Proof. intros H. unfold attempt. rewrite H. reflexivity. Qed.

Lemma attempt_RErr e fs1 l1 : m env fs = (RErr e, fs1, l1) -> attempt m env fs = (ROk (Err e), fs1, l1).
Proof. intros H. unfold attempt. rewrite H. reflexivity. Qed.

End Run.

Lemma open_rw_ok (p : path) (env : Env) (fs : FileSystem) (fl : file) :
  fault env (OpOpen p) = None -> p ∉ dirs fs -> files fs !! p = Some fl -> p ∉ locked env ->
  open_rw p env fs = (ROk p, fs, []).
Proof.
  intros Hf Hd Hp Hl. unfold open_rw, syscall. rewrite Hf.
  unfold is_dir, is_file. rewrite bool_decide_false by exact Hd.
  rewrite bool_decide_true by (rewrite Hp; eauto). rewrite bool_decide_false by exact Hl.
  reflexivity.
Qed.



Lemma and_local_timezone_utc_single (dt : NaiveDateTime) :
  and_local_timezone_utc dt = Single (mkUtc (sub_offset dt 0)).
Proof. reflexivity. Qed.

(** C10: whenever [assume_launch_time] succeeds, the UTC date-time it
    returns is present (the date-time read from the log, taken as UTC):
    a naive date-time in [Utc] is never absent nor ambiguous, so the
    [unwrap] of [move_log_file] cannot fail after it. *)
Theorem assume_launch_time_utc_present (p : path) (env : Env) (fs fs' : FileSystem)
    (r : option DateTimeUtc * NaiveDateTime) (l : list log_line) :
  assume_launch_time p env fs = (ROk r, fs', l) ->
  r.1 = Some (mkUtc (sub_offset r.2 0)).
Proof.
  unfold assume_launch_time, bind.
  destruct (read_exact p 19 env fs) as [[[b| |] fs1] l1]; try discriminate.
  destruct (Utf8.from_utf8 b) as [s|]; [|discriminate].
  destruct (Parse.parse_from_str s LOG_TIME_FORMAT) as [d|]; [|discriminate].
  intros H. injection H as <- _ _. reflexivity.
Qed.

Lemma assume_launch_time_utc_present_witness :
  assume_launch_time log_path (env ∅ [] ERROR_ACCESS_DENIED) (world log_contents) =
    (ROk (Some (mkUtc example_launch), example_launch), world log_contents, []) /\
  Some (mkUtc example_launch) = Some (mkUtc (sub_offset example_launch 0)).
Proof.
  split; [vm_compute; reflexivity|].
  apply (assume_launch_time_utc_present log_path (env ∅ [] ERROR_ACCESS_DENIED)
           (world log_contents) (world log_contents)
           (Some (mkUtc example_launch), example_launch) []).
  vm_compute. reflexivity.
Defined.

(** An error of [move_log_file] is printed and the pass goes on with the
    next entry. *)
Lemma rename_entries_error (config : ConfigFile) (n : path) (rest : list path) (caps : Captures)
    (env : Env) (fs fs1 : FileSystem) (e : io_error) (l1 : list log_line) :
  captures (source_pattern (source config)) n = Some caps ->
  move_log_file config (join (source_folder (source config)) n) caps env fs = (RErr e, fs1, l1) ->
  rename_entries config (n :: rest) env fs =
    (let '(r, fs', l) := rename_entries config rest env fs1 in
     (r, fs', LogMatches (join (source_folder (source config)) n) :: l1 ++
              LogErrorMoving (join (source_folder (source config)) n) e :: l)).
Proof.
  intros Hcap Hmove. cbn [rename_entries]. rewrite Hcap.
  erewrite bind_ROk by reflexivity. cbv beta.
  erewrite bind_ROk by (apply attempt_RErr; exact Hmove). cbv beta iota.
  erewrite bind_ROk by reflexivity. cbv beta.
  destruct (rename_entries config rest env fs1) as [[r fs'] l]. simpl.
  reflexivity.
Qed.

Lemma rename_entries_ok (config : ConfigFile) (n : path) (rest : list path) (caps : Captures)
    (env : Env) (fs fs1 : FileSystem) (l1 : list log_line) :
  captures (source_pattern (source config)) n = Some caps ->
  move_log_file config (join (source_folder (source config)) n) caps env fs = (ROk tt, fs1, l1) ->
  rename_entries config (n :: rest) env fs =
    (let '(r, fs', l) := rename_entries config rest env fs1 in
     (r, fs', LogMatches (join (source_folder (source config)) n) :: l1 ++ l)).
Proof.
  intros Hcap Hmove. cbn [rename_entries]. rewrite Hcap.
  erewrite bind_ROk by reflexivity. cbv beta.
  erewrite bind_ROk by (apply attempt_ROk; exact Hmove). cbv beta iota.
  destruct (rename_entries config rest env fs1) as [[r fs'] l]. reflexivity.
Qed.

(** C9: when the read+write open of the log file fails (another process
    holds it, or any other refusal), [move_log_file] prints that it
    skips the file and succeeds without touching the file system, and
    the pass goes on with the next entry. *)
Theorem locked_log_file_skipped (config : ConfigFile) (n p : path) (caps : Captures)
    (rest : list path) (env : Env) (fs : FileSystem) (e : io_error) :
  p = join (source_folder (source config)) n ->
  captures (source_pattern (source config)) n = Some caps ->
  open_rw p env fs = (RErr e, fs, []) ->
  move_log_file config p caps env fs = (ROk tt, fs, [LogMayBeUsed p]) /\
  rename_entries config (n :: rest) env fs =
    (let '(r, fs', l) := rename_entries config rest env fs in
     (r, fs', LogMatches p :: LogMayBeUsed p :: l)).
Proof.
  intros -> Hcap Hopen.
  assert (Hmove : move_log_file config (join (source_folder (source config)) n) caps env fs =
                  (ROk tt, fs, [LogMayBeUsed (join (source_folder (source config)) n)])).
  { unfold move_log_file.
    assert (Hdst : log_destination config (join (source_folder (source config)) n) caps env fs =
                   (ROk None, fs, [LogMayBeUsed (join (source_folder (source config)) n)])).
    { unfold log_destination. erewrite bind_ROk by (apply attempt_RErr; exact Hopen).
      reflexivity. }
    erewrite bind_ROk by exact Hdst. reflexivity. }
  split; [exact Hmove|].
  rewrite (rename_entries_ok _ _ _ _ _ _ _ _ Hcap Hmove). reflexivity.
Qed.

Lemma locked_log_file_skipped_witness :
  rename_entries (config false) [log_name] (env {[log_path]} [] ERROR_ACCESS_DENIED)
    (world log_contents) =
  (ROk tt, world log_contents, [LogMatches log_path; LogMayBeUsed log_path]).
Proof.
  rewrite (proj2 (locked_log_file_skipped (config false) log_name log_path
                    (default (mkCaptures [] []) (captures default_pattern log_name)) []
                    (env {[log_path]} [] ERROR_ACCESS_DENIED) (world log_contents)
                    ERROR_SHARING_VIOLATION eq_refl
                    ltac:(vm_compute; reflexivity) ltac:(vm_compute; reflexivity))).
  reflexivity.
Defined.

(** An error of [assume_launch_time] is the error of [move_log_file]. *)
Lemma move_log_file_launch_error (config : ConfigFile) (p : path) (caps : Captures)
    (env : Env) (fs : FileSystem) (fl : file) (e : io_error) :
  file_ctime (output config) = false ->
  fault env (OpOpen p) = None -> p ∉ dirs fs -> files fs !! p = Some fl -> p ∉ locked env ->
  assume_launch_time p env fs = (RErr e, fs, []) ->
  move_log_file config p caps env fs = (RErr e, fs, []).
Proof.
  intros Hc Hf Hd Hp Hl Hat.
  assert (Hdst : log_destination config p caps env fs = (RErr e, fs, [])).
  { unfold log_destination.
    erewrite bind_ROk by (apply attempt_ROk; exact (open_rw_ok p env fs fl Hf Hd Hp Hl)).
    cbv beta iota. rewrite Hc. erewrite bind_RErr by exact Hat. reflexivity. }
  unfold move_log_file. erewrite bind_RErr by exact Hdst. reflexivity.
Qed.

Lemma assume_launch_time_short (p : path) (env : Env) (fs : FileSystem) (fl : file) :
  fault env (OpRead p) = None -> files fs !! p = Some fl -> (length (contents fl) < 19)%nat ->
  assume_launch_time p env fs = (RErr (new_error UnexpectedEof), fs, []).
Proof.
  intros Hf Hp Hn. unfold assume_launch_time.
  erewrite bind_RErr; [reflexivity|].
  unfold read_exact, syscall. rewrite Hf, Hp.
  destruct (Nat.ltb_spec (length (contents fl)) 19); [reflexivity|lia].
Qed.




(** ** Moving a file *)

Lemma bind_inv {A B} (m : M A) (k : A -> M B) (env : Env) (fs fs' : FileSystem) r l :
  bind m k env fs = (r, fs', l) ->
  (exists a fs1 l1 l2, m env fs = (ROk a, fs1, l1) /\ k a env fs1 = (r, fs', l2) /\ l = l1 ++ l2) \/
  (exists e, m env fs = (RErr e, fs', l) /\ r = RErr e) \/
  (m env fs = (RPanic, fs', l) /\ r = RPanic).
Proof.
  unfold bind. destruct (m env fs) as [[[a|e|] fs1] l1].
  - destruct (k a env fs1) as [[r2 fs2] l2] eqn:E. intros H. injection H as <- <- <-.
    left. exists a, fs1, l1, l2. auto.
  - intros H. injection H as <- <- <-. right. left. eauto.
  - intros H. injection H as <- <- <-. right. right. auto.
Qed.

Lemma is_file_false (fs : FileSystem) (p : path) : is_file fs p = false -> files fs !! p = None.
Proof.
  unfold is_file. intros H. apply bool_decide_eq_false in H. apply eq_None_not_Some. exact H.
Qed.

Lemma open_rw_inv (p : path) (env : Env) (fs fs1 : FileSystem) r l :
  open_rw p env fs = (r, fs1, l) -> fs1 = fs /\ l = [] /\ (forall h, r = ROk h -> h = p).
Proof. unfold open_rw, syscall. intros H. repeat case_match; simplify_eq; naive_solver. Qed.

Lemma open_create_new_inv (q : path) (env : Env) (fs fs1 : FileSystem) r l :
  open_create_new q env fs = (r, fs1, l) ->
  l = [] /\
  ((exists e, r = RErr e /\ fs1 = fs) \/
   (r = ROk q /\ files fs !! q = None /\
    files fs1 = <[q := mkFile [] (now env) (now env)]> (files fs))).
Proof.
  unfold open_create_new, syscall. intros H.
  repeat case_match; simplify_eq; [naive_solver|naive_solver|].
  split; [reflexivity|]. right. split; [reflexivity|]. split; [|reflexivity].
  apply is_file_false.
  match goal with Hq : is_file fs q || is_dir fs q = false |- _ =>
    apply orb_false_iff in Hq as [Hq _]; exact Hq end.
Qed.

Lemma io_copy_inv (a b : path) (env : Env) (fs fs1 : FileSystem) r l :
  io_copy a b env fs = (r, fs1, l) ->
  l = [] /\
  ((exists e, r = RErr e /\ fs1 = fs) \/
   (r = ROk tt /\ exists f g, files fs !! a = Some f /\ files fs !! b = Some g /\
      files fs1 = <[b := mkFile (contents f) (creation_time g) (now env)]> (files fs))).
Proof. unfold io_copy, syscall. intros H. repeat case_match; simplify_eq; naive_solver. Qed.

Lemma flush_inv (h : path) (env : Env) (fs fs1 : FileSystem) r l :
  flush h env fs = (r, fs1, l) -> fs1 = fs /\ l = [].
Proof. unfold flush, syscall. intros H. repeat case_match; simplify_eq; naive_solver. Qed.

Lemma remove_file_inv (p : path) (env : Env) (fs fs1 : FileSystem) r l :
  remove_file p env fs = (r, fs1, l) ->
  l = [] /\ ((exists e, r = RErr e /\ fs1 = fs) \/ (r = ROk tt /\ files fs1 = delete p (files fs))).
Proof. unfold remove_file, syscall. intros H. repeat case_match; simplify_eq; naive_solver. Qed.

Lemma rename_inv (p q : path) (env : Env) (fs fs1 : FileSystem) r l :
  rename p q env fs = (r, fs1, l) ->
  l = [] /\
  ((r = ROk tt /\ exists f, files fs !! p = Some f /\ files fs1 = <[q := f]> (delete p (files fs))) \/
   (exists e, r = RErr e /\ fs1 = fs)).
Proof. unfold rename, syscall. intros H. repeat case_match; simplify_eq; naive_solver. Qed.

(** The fallback removes the source only once its contents are in the
    destination. *)
Lemma move_by_copy_source_removed (from to : path) (env : Env) (fs fs' : FileSystem) r l (f : file) :
  move_by_copy from to env fs = (r, fs', l) ->
  files fs !! from = Some f -> files fs' !! from = None ->
  r = ROk tt /\ exists g, files fs' !! to = Some g /\ contents g = contents f.
Proof.
  unfold move_by_copy. intros H Hf Hn.
  apply bind_inv in H as [(h & fs1 & l1 & l2 & E1 & H & _)|[(e & E1 & _)|(E1 & _)]];
    apply open_rw_inv in E1 as (-> & _ & Hh); [|congruence|congruence].
  rewrite (Hh h eq_refl) in H.
  apply bind_inv in H as [(h2 & fs2 & l3 & l4 & E2 & H & _)|[(e & E2 & _)|(E2 & _)]];
    apply open_create_new_inv in E2 as (_ & [(e2 & He2 & Hfs2)|(Hh2 & Hto & Hfs2)]);
    try discriminate; try (subst; congruence).
  injection Hh2 as ->.
  assert (Hne : from <> to) by congruence.
  assert (Hf2 : files fs2 !! from = Some f) by (rewrite Hfs2, lookup_insert_ne by congruence; exact Hf).
  apply bind_inv in H as [(u1 & fs3 & l5 & l6 & E3 & H & _)|[(e & E3 & _)|(E3 & _)]];
    apply io_copy_inv in E3 as (_ & [(e3 & He3 & Hfs3)|(Hu1 & f' & g & Hf' & Hg & Hfs3)]);
    try discriminate; try (subst; congruence).
  rewrite Hf2 in Hf'. injection Hf' as <-.
  assert (Hf3 : files fs3 !! from = Some f) by (rewrite Hfs3, lookup_insert_ne by congruence; exact Hf2).
  apply bind_inv in H as [(u2 & fs4 & l7 & l8 & E4 & H & _)|[(e & E4 & _)|(E4 & _)]];
    apply flush_inv in E4 as (-> & _); try (subst; congruence).
  apply remove_file_inv in H as (_ & [(e5 & _ & ->)|(-> & Hfs')]); [congruence|].
  split; [reflexivity|].
  exists (mkFile (contents f) (creation_time g) (now env)). split; [|reflexivity].
  rewrite Hfs', lookup_delete_ne by congruence. rewrite Hfs3. apply lookup_insert_eq.
Qed.

(** The fallback never writes over an existing destination. *)
Lemma move_by_copy_existing_destination (from to : path) (env : Env) (fs fs' : FileSystem) r l :
  (is_file fs to || is_dir fs to) = true ->
  move_by_copy from to env fs = (r, fs', l) ->
  fs' = fs /\ exists e, r = RErr e.
Proof.
  unfold move_by_copy. intros Hto H.
  apply bind_inv in H as [(h & fs1 & l1 & l2 & E1 & H & _)|[(e & E1 & ->)|(E1 & ->)]].
  2: apply open_rw_inv in E1 as (-> & _ & _); eauto.
  2: exfalso; unfold open_rw, syscall in E1; repeat case_match; simplify_eq.
  apply open_rw_inv in E1 as (-> & _ & _).
  - apply bind_inv in H as [(h2 & fs2 & l3 & l4 & E2 & H & _)|[(e & E2 & ->)|(E2 & ->)]].
    + unfold open_create_new, syscall in E2. rewrite Hto in E2.
      destruct (fault env (OpCreateNew to)); discriminate.
    + apply open_create_new_inv in E2 as (_ & [(e2 & _ & ->)|(? & ? & _)]); [eauto|discriminate].
    + apply open_create_new_inv in E2 as (_ & [(e2 & ? & _)|(? & ? & _)]); discriminate.
Qed.

(** C6: [move_file] first renames; on [ERROR_NOT_SAME_DEVICE] (17), and
    only on it, it copies and deletes instead; any other rename error is
    returned with nothing changed.  The fallback creates the destination
    new, so it never writes over an existing file or directory; and the
    source is gone afterwards only if the move succeeded and the
    destination holds the source's contents. *)
Theorem move_file_rename_or_copy (from to : path) (env : Env) (fs : FileSystem) :
  (forall fs1 l1, rename from to env fs = (ROk tt, fs1, l1) ->
     move_file from to env fs = (ROk tt, fs1, l1)) /\
  (forall e fs1 l1, rename from to env fs = (RErr e, fs1, l1) ->
     raw_os_error e = Some CROSSES_DEVICES_OS_CODE ->
     move_file from to env fs = move_by_copy from to env fs) /\
  (forall e fs1 l1, rename from to env fs = (RErr e, fs1, l1) ->
     raw_os_error e <> Some CROSSES_DEVICES_OS_CODE ->
     move_file from to env fs = (RErr e, fs, [])) /\
  ((is_file fs to || is_dir fs to) = true ->
     forall r fs' l, move_by_copy from to env fs = (r, fs', l) -> fs' = fs /\ exists e, r = RErr e) /\
  (forall r fs' l f, move_file from to env fs = (r, fs', l) ->
     files fs !! from = Some f -> files fs' !! from = None ->
     r = ROk tt /\ exists g, files fs' !! to = Some g /\ contents g = contents f).
Proof.
  split; [|split; [|split; [|split]]].
  - intros fs1 l1 H. unfold move_file.
    erewrite bind_ROk by (apply attempt_ROk; exact H). cbn. rewrite app_nil_r. reflexivity.
  - intros e fs1 l1 H Hraw. pose proof (rename_inv _ _ _ _ _ _ _ H) as (-> & [(? & _)|(e' & _ & ->)]);
      [discriminate|].
    unfold move_file. erewrite bind_ROk by (apply attempt_RErr; exact H). cbv beta iota.
    rewrite bool_decide_true by exact Hraw.
    destruct (move_by_copy from to env fs) as [[r2 fs2] l2]. reflexivity.
  - intros e fs1 l1 H Hraw. pose proof (rename_inv _ _ _ _ _ _ _ H) as (-> & [(? & _)|(e' & _ & ->)]);
      [discriminate|].
    unfold move_file. erewrite bind_ROk by (apply attempt_RErr; exact H). cbv beta iota.
    rewrite bool_decide_false by exact Hraw. reflexivity.
  - intros Hto r fs' l H. exact (move_by_copy_existing_destination from to env fs fs' r l Hto H).
  - intros r fs' l f H Hf Hn.
    destruct (rename from to env fs) as [[r0 fs1] l1] eqn:ER.
    pose proof (rename_inv _ _ _ _ _ _ _ ER) as (-> & [(-> & f0 & Hf0 & Hfs1)|(e & -> & ->)]).
    + unfold move_file, bind, attempt in H. rewrite ER in H. cbn in H.
      injection H as <- <- _. rewrite Hf in Hf0. injection Hf0 as <-.
      split; [reflexivity|]. exists f. rewrite Hfs1, lookup_insert_eq. auto.
    + unfold move_file, bind, attempt in H. rewrite ER in H. cbv beta iota in H.
      destruct (bool_decide (raw_os_error e = Some CROSSES_DEVICES_OS_CODE)).
      * destruct (move_by_copy from to env fs) as [[r2 fs2] l2] eqn:EM.
        injection H as <- <- _. exact (move_by_copy_source_removed from to env fs fs2 r2 l2 f EM Hf Hn).
      * injection H as _ <- _. congruence.
Qed.

Lemma move_file_rename_or_copy_witness :
  move_file log_path other_volume_dst cross_volume_env (world log_contents) =
    move_by_copy log_path other_volume_dst cross_volume_env (world log_contents) /\
  (move_file log_path other_volume_dst cross_volume_env (world log_contents)).1.1 = ROk tt /\
  exists g, files (move_file log_path other_volume_dst cross_volume_env (world log_contents)).1.2
              !! other_volume_dst = Some g /\ contents g = log_contents.
Proof.
  pose proof (move_file_rename_or_copy log_path other_volume_dst cross_volume_env (world log_contents))
    as (_ & H2 & _ & _ & H5).
  split; [apply (H2 ERROR_NOT_SAME_DEVICE (world log_contents) []); vm_compute; reflexivity|].
  apply (H5 _ _ (move_file log_path other_volume_dst cross_volume_env (world log_contents)).2
            (mkFile log_contents 7 8)); vm_compute; reflexivity.
Defined.

(** ** Keeping the original *)

(** C2: with [keep_old], [move_log_file] copies the log to a destination
    that does not exist: [CopyFileEx] gives the copy the original's
    contents and last-write time, and the time of the copy as its creation
    time.  It then opens the original, reads its metadata and opens the
    copy; a failure of the copy or of any of these is returned as the
    file's error.  [SetFileTime] gets the handle of the read-only [File]
    already dropped, so it always fails, and the inverted check (line 183)
    then returns [Ok(())]: the original's creation time never reaches the
    copy, and nothing is logged.  The source is left as it was. *)
Theorem keep_old_copy_without_times (config : ConfigFile) (p dst : path) (env : Env)
    (fs fs' : FileSystem) (r : res unit) (l : list log_line) :
  keep_old (source config) = true -> path_exists fs dst = false -> is_dir fs p = false ->
  place_log_file config p dst env fs = (r, fs', l) ->
  l = [] /\
  ((exists e, copy p dst env fs = (RErr e, fs, []) /\ r = RErr e /\ fs' = fs) \/
   (exists f, files fs !! p = Some f /\
     let fs1 := mkFS (<[dst := mkFile (contents f) (now env) (last_write_time f)]> (files fs)) (dirs fs) in
     copy p dst env fs = (ROk tt, fs1, []) /\ fs' = fs1 /\
     r = match fault env (OpOpen p), fault env (OpMetadata p), fault env (OpOpen dst) with
         | Some e, _, _ => RErr e
         | None, Some e, _ => RErr e
         | None, None, Some e => RErr e
         | None, None, None => ROk tt
         end)).
Proof.
  intros Hk Hne Hdp H.
  unfold path_exists in Hne. apply orb_false_iff in Hne as [Hfd Hdd].
  unfold place_log_file, bind, exists_ in H. rewrite Hfd, Hdd in H. cbv beta iota delta [orb] in H. rewrite Hk in H.
  unfold copy, syscall in H.
  destruct (fault env (OpCopy p dst)) as [e|] eqn:Fc.
  { cbn in H. injection H as <- <- <-. split; [done|].
    left. exists e. unfold copy, syscall. rewrite Fc. done. }
  destruct (files fs !! p) as [f|] eqn:Fp.
  2:{ cbn in H. injection H as <- <- <-. split; [done|].
    left. exists ERROR_FILE_NOT_FOUND. unfold copy, syscall. rewrite Fc, Fp. done. }
  rewrite Hdd in H. cbv beta iota zeta in H.
  assert (Hpd : p <> dst) by (intros ->; unfold is_file in Hfd; rewrite Fp in Hfd; done).
  set (fc := mkFile (contents f) (now env) (last_write_time f)) in H.
  set (fs1 := mkFS (<[dst:=fc]> (files fs)) (dirs fs)) in H.
  assert (Hcopy : copy p dst env fs = (ROk tt, fs1, [])).
  { unfold copy, syscall. rewrite Fc, Fp, Hdd. reflexivity. }
  assert (Hl1p : files fs1 !! p = Some f) by (cbn; rewrite lookup_insert_ne by congruence; exact Fp).
  assert (Hl1d : files fs1 !! dst = Some fc) by (cbn; apply lookup_insert_eq).
  assert (Hf1p : is_file fs1 p = true) by (unfold is_file; rewrite Hl1p; apply bool_decide_true; eauto).
  assert (Hf1d : is_file fs1 dst = true) by (unfold is_file; rewrite Hl1d; apply bool_decide_true; eauto).
  change (is_dir fs1 p = false) in Hdp. change (is_dir fs1 dst = false) in Hdd.
  unfold open_read, metadata, set_file_time, temporary_raw_handle, last_os_error, syscall in H.
  split; [|right; exists f; split; [first [exact Fp|reflexivity]|]; cbv zeta; split; [exact Hcopy|]].
  all: destruct (fault env (OpOpen p)) as [e1|] eqn:F1;
    [cbv beta iota zeta in H; injection H as <- <- <-; auto|].
  all: rewrite Hdp, Hf1p in H; cbv beta iota zeta delta [negb] in H.
  all: destruct (fault env (OpMetadata p)) as [e2|] eqn:F2;
    [cbv beta iota zeta in H; injection H as <- <- <-; auto|].
  all: rewrite Hl1p in H; cbv beta iota zeta in H.
  all: destruct (fault env (OpOpen dst)) as [e3|] eqn:F3;
    [cbv beta iota zeta in H; injection H as <- <- <-; auto|].
  all: rewrite Hdd, Hf1d in H; cbv beta iota zeta delta [negb orb] in H; injection H as <- <- <-; auto.
Qed.

Lemma keep_old_copy_without_times_witness :
  (place_log_file (config true) log_path example_dst plain_env (world log_contents)).1.1 = ROk tt /\
  files (place_log_file (config true) log_path example_dst plain_env (world log_contents)).1.2
    !! example_dst = Some (mkFile log_contents 0 8).
Proof.
  pose proof (keep_old_copy_without_times (config true) log_path example_dst plain_env (world log_contents)
    (place_log_file (config true) log_path example_dst plain_env (world log_contents)).1.2
    (place_log_file (config true) log_path example_dst plain_env (world log_contents)).1.1
    (place_log_file (config true) log_path example_dst plain_env (world log_contents)).2
    eq_refl ltac:(vm_compute; reflexivity) ltac:(vm_compute; reflexivity) ltac:(vm_compute; reflexivity))
    as (_ & [(e & Hc & _)|(f & Hf & _ & Hfs & Hr)]).
  - vm_compute in Hc. discriminate.
  - vm_compute in Hf. injection Hf as <-. split; [exact Hr|]. rewrite Hfs. vm_compute. reflexivity.
Defined.

(** The example log, created at time 7, is kept and copied at time 0:
    [move_log_file] succeeds without a line, and the copy's creation time
    is 0, not the original's. *)
Lemma keep_old_times_not_propagated :
  let '(r, fs', l) := move_log_file (config true) log_path log_caps plain_env (world log_contents) in
  r = ROk tt /\ l = [] /\ files fs' !! example_dst = Some (mkFile log_contents 0 8) /\
  files fs' !! log_path = Some (mkFile log_contents 7 8).
Proof. vm_compute. auto. Qed.

(** ** An existing destination *)

Lemma bind_files {A B} (m : M A) (k : A -> M B) (env : Env) (fs fs' : FileSystem) r l :
  (forall fs1 r1 l1, m env fs = (r1, fs1, l1) -> files fs1 = files fs) ->
  (forall a fs1 fs2 r2 l2, k a env fs1 = (r2, fs2, l2) -> files fs2 = files fs1) ->
  bind m k env fs = (r, fs', l) -> files fs' = files fs.
Proof.
  intros Hm Hk H. apply bind_inv in H as [(a & fs1 & l1 & l2 & E1 & E2 & _)|[(e & E1 & _)|(E1 & _)]].
  - rewrite (Hk _ _ _ _ _ E2). exact (Hm _ _ _ E1).
  - exact (Hm _ _ _ E1).
  - exact (Hm _ _ _ E1).
Qed.

Lemma attempt_files {A} (m : M A) (env : Env) (fs fs' : FileSystem) r l :
  (forall fs1 r1 l1, m env fs = (r1, fs1, l1) -> files fs1 = files fs) ->
  attempt m env fs = (r, fs', l) -> files fs' = files fs.
Proof.
  intros Hm. unfold attempt. destruct (m env fs) as [[r1 fs1] l1] eqn:E.
  specialize (Hm _ _ _ eq_refl). destruct r1; intros H; injection H as _ <- _; exact Hm.
Qed.

Ltac keep_files :=
  cbv beta zeta;
  lazymatch goal with
  | |- bind _ _ _ _ = _ -> _ => apply bind_files; [intros ? ? ?; keep_files | intros ? ? ? ? ?; keep_files]
  | |- attempt _ _ _ = _ -> _ => apply attempt_files; intros ? ? ?; keep_files
  | |- (match ?x with _ => _ end) _ _ = _ -> _ => destruct x; keep_files
  | |- (if ?x then _ else _) _ _ = _ -> _ => destruct x; keep_files
  | |- _ =>
      let H := fresh in
      intros H;
      unfold open_rw, open_read, metadata, read_exact, create_dir_all, exists_, get_env, log,
        last_os_error, mret, M_ret, ret, fail, panic, syscall in H;
      repeat case_match; simplify_eq; reflexivity
  end.

Lemma log_destination_files (config : ConfigFile) (p : path) (caps : Captures) (env : Env)
    (fs fs' : FileSystem) r l :
  log_destination config p caps env fs = (r, fs', l) -> files fs' = files fs.
Proof. unfold log_destination, assume_launch_time. keep_files. Qed.

Lemma place_log_file_existing (config : ConfigFile) (p dst : path) (env : Env) (fs : FileSystem) :
  path_exists fs dst = true -> place_log_file config p dst env fs = (ROk tt, fs, [LogExists dst]).
Proof. unfold path_exists. intros H. unfold place_log_file, bind, exists_. rewrite H. reflexivity. Qed.

Lemma move_log_file_no_move (config : ConfigFile) (p : path) (caps : Captures) (env : Env)
    (fs fs1 : FileSystem) (d : option path) (l1 : list log_line) :
  log_destination config p caps env fs = (ROk d, fs1, l1) ->
  (forall dst, d = Some dst -> path_exists fs1 dst = true) ->
  move_log_file config p caps env fs =
    (ROk tt, fs1, l1 ++ match d with Some dst => [LogExists dst] | None => [] end).
Proof.
  intros Hd Hex. unfold move_log_file. erewrite bind_ROk by exact Hd. cbv beta.
  destruct d as [dst|].
  - rewrite place_log_file_existing by (apply Hex; reflexivity). reflexivity.
  - reflexivity.
Qed.

(** C5: once the destination computed for a log file exists, [move_log_file]
    succeeds and only logs it: no file is copied, moved or removed.  So a
    pass over entries whose destinations all exist already (and whose
    output folder exists) changes nothing. *)
Theorem existing_destination_unchanged (config : ConfigFile) :
  (forall p caps env fs dst fs1 l1,
     log_destination config p caps env fs = (ROk (Some dst), fs1, l1) ->
     path_exists fs1 dst = true ->
     move_log_file config p caps env fs = (ROk tt, fs1, l1 ++ [LogExists dst]) /\
     files fs1 = files fs) /\
  (forall entries env fs,
     Forall (fun n => forall caps, captures (source_pattern (source config)) n = Some caps ->
       exists r l, log_destination config (join (source_folder (source config)) n) caps env fs = (r, fs, l) /\
                   r <> RPanic /\ (forall dst, r = ROk (Some dst) -> path_exists fs dst = true))
       entries ->
     exists l, rename_entries config entries env fs = (ROk tt, fs, l)).
Proof.
  split.
  - intros p caps env fs dst fs1 l1 Hd Hex. split.
    + apply (move_log_file_no_move config p caps env fs fs1 (Some dst) l1 Hd).
      intros d' E. injection E as <-. exact Hex.
    + exact (log_destination_files config p caps env fs fs1 _ _ Hd).
  - intros entries env fs. induction entries as [|n rest IH]; intros HF.
    + exists []. reflexivity.
    + inversion HF as [|? ? Hn Hrest]; subst.
      destruct (IH Hrest) as [lr Hr].
      destruct (captures (source_pattern (source config)) n) as [caps|] eqn:Hc.
      * destruct (Hn caps eq_refl) as (r0 & l0 & Hld & Hnp & Hex).
        destruct r0 as [d|e|]; [ | | congruence].
        -- erewrite rename_entries_ok; [|exact Hc|].
           2:{ apply move_log_file_no_move; [exact Hld|]. intros dst ->. apply Hex. reflexivity. }
           rewrite Hr. eexists. reflexivity.
        -- erewrite rename_entries_error; [|exact Hc|].
           2:{ unfold move_log_file. apply bind_RErr. exact Hld. }
           rewrite Hr. eexists. reflexivity.
      * exists lr. cbn [rename_entries]. rewrite Hc. exact Hr.
Qed.

Lemma existing_destination_unchanged_witness :
  path_exists kept_world example_dst = true /\
  move_log_file (config true) log_path log_caps plain_env kept_world =
    (ROk tt, kept_world,
     (log_destination (config true) log_path log_caps plain_env kept_world).2 ++ [LogExists example_dst]) /\
  exists l, rename_entries (config true) [log_name] plain_env kept_world = (ROk tt, kept_world, l).
Proof.
  pose proof (existing_destination_unchanged (config true)) as [HA HB].
  split; [vm_compute; reflexivity|]. split.
  - apply (HA _ _ _ _ _ kept_world); vm_compute; reflexivity.
  - apply HB. repeat constructor. intros caps Hc. vm_compute in Hc. injection Hc as <-.
    eexists _, _. split; [vm_compute; reflexivity|]. split; [discriminate|].
    intros dst E. vm_compute in E. injection E as <-. vm_compute. reflexivity.
Defined.

(** ** Templates and placeholders *)

Lemma pattern_to_string_go_acc (p : list Item) (acc : ustr) :
  pattern_to_string_go p acc =
    match pattern_to_string_go p [] with Ok s => Ok (acc ++ s) | Err e => Err e end.
Proof.
  revert acc. induction p as [|x p IH]; intros acc; simpl.
  - rewrite app_nil_r. reflexivity.
  - destruct (item_to_string x) as [s|e]; [|reflexivity].
    rewrite (IH (acc ++ s)), (IH s).
    destruct (pattern_to_string_go p []); [|reflexivity]. rewrite app_assoc. reflexivity.
Qed.

Lemma pattern_to_string_go_app (a b : list Item) (acc : ustr) :
  pattern_to_string_go (a ++ b) acc =
    match pattern_to_string_go a acc with Ok s => pattern_to_string_go b s | Err e => Err e end.
Proof.
  revert acc. induction a as [|x a IH]; intros acc; simpl; [reflexivity|].
  destruct (item_to_string x) as [s|e]; [apply IH|reflexivity].
Qed.

(** [pattern_to_string] of a concatenation: the two texts one after the
    other, or the error of the first part that fails. *)
Theorem pattern_to_string_app (a b : list Item) :
  pattern_to_string (a ++ b) =
    match pattern_to_string a with
    | Ok s => match pattern_to_string b with Ok t => Ok (s ++ t) | Err e => Err e end
    | Err e => Err e
    end.
Proof.
  unfold pattern_to_string. rewrite pattern_to_string_go_app.
  destruct (pattern_to_string_go a []) as [s|e]; [|reflexivity].
  apply pattern_to_string_go_acc.
Qed.

Lemma find_not_in (c : Z) (s : ustr) : ~ In c s -> find c s = None.
Proof.
  induction s as [|x s IH]; simpl; intros H; [reflexivity|].
  destruct (Z.eqb_spec x c) as [->|Hx]; [exfalso; auto|]. rewrite IH; auto.
Qed.

Lemma process_lit_no_lbrace (f : resolver) (s : ustr) : ~ In LBRACE s -> process_lit f s = None.
Proof.
  intros H. unfold process_lit. cbn [loops]. rewrite (find_not_in _ _ H).
  rewrite Nat.eqb_refl. reflexivity.
Qed.

(** [process_lit] gives [None] (the item is yielded as it is) exactly
    when the literal has no [{], or starts with [{] and has no [}]. *)
Theorem process_lit_None_iff (f : resolver) (l : ustr) :
  process_lit f l = None <->
  find LBRACE l = None \/ (head l = Some LBRACE /\ find RBRACE l = None).
Proof.
  assert (Hlr : (LBRACE =? RBRACE)%Z = false) by reflexivity.
  unfold process_lit. cbn [loops].
  destruct (find LBRACE l) as [k|] eqn:Hk.
  2:{ rewrite Nat.eqb_refl. tauto. }
  destruct (find_some _ _ _ Hk) as (pre & post & -> & -> & Hnin).
  rewrite take_app_length, drop_app_length. cbn [find]. rewrite Hlr.
  destruct (find RBRACE post) as [e|] eqn:He; cbn [option_map].
  - destruct (find_some _ _ _ He) as (name & post' & -> & -> & _).
    match goal with
    | |- context [loops ?fu f ?pa ?bu] =>
        pose proof (loops_length f fu pa bu) as HL; destruct (loops fu f pa bu) as [pat b] eqn:EL
    end.
    cbn [fst] in HL.
    change (drop (S (S (length name))) (LBRACE :: name ++ RBRACE :: post'))
      with (drop (S (length name)) (name ++ RBRACE :: post')) in HL.
    rewrite drop_through in HL.
    assert (Hneq : (length (pre ++ LBRACE :: name ++ RBRACE :: post') =? length pat)%nat = false).
    { apply Nat.eqb_neq. rewrite !length_app. simpl. rewrite length_app. simpl. lia. }
    rewrite Hneq. split; [discriminate|].
    intros [H|[Hh H]]; [discriminate|].
    destruct pre as [|x pre]; simpl in H, Hh.
    + rewrite He in H. discriminate.
    + injection Hh as ->. exfalso. apply Hnin. left. reflexivity.
  - destruct pre as [|x pre].
    + simpl. rewrite Nat.eqb_refl. split; [intros _; right; split; [reflexivity|]|reflexivity].
      rewrite He. reflexivity.
    + assert (Hneq : (length ((x :: pre) ++ LBRACE :: post) =? length (LBRACE :: post))%nat = false).
      { apply Nat.eqb_neq. simpl. rewrite length_app. simpl. lia. }
      rewrite Hneq. split; [discriminate|].
      intros [H|[Hh _]]; [discriminate|]. simpl in Hh. injection Hh as ->. exfalso. apply Hnin. left. reflexivity.
Qed.

(** A template whose literals have no [{] comes out of [MatchingIter]
    unchanged, item for item, whatever the resolver. *)
Theorem MatchingIter_no_brace (base : list Item) (f : resolver) :
  (forall it s, In it base -> literal_text it = Some s -> ~ In LBRACE s) ->
  MatchingIter base f = base.
Proof.
  intros H. unfold MatchingIter. rewrite <- (map_id base) at 2. apply map_ext_in.
  intros it Hin. destruct it as [s|s| | | | |]; try reflexivity;
    unfold matching_item; rewrite process_lit_no_lbrace; try reflexivity; exact (H _ s Hin eq_refl).
Qed.

(** The resolver of [move_log_file] answers exactly the names that
    start with [regex:]; any other placeholder is kept as written. *)
Theorem regex_resolver_None_iff (c : Captures) (n : ustr) :
  regex_resolver c n = None <-> ~ exists name, n = u "regex:" ++ name.
Proof.
  split.
  - intros H [name ->]. unfold regex_resolver in H. rewrite split_once_regex in H.
    rewrite bool_decide_true in H by reflexivity. discriminate.
  - intros Hn. unfold regex_resolver, split_once.
    destruct (find 58 n) as [i|] eqn:Hf; [|reflexivity].
    destruct (find_some _ _ _ Hf) as (pre & post & -> & -> & _).
    rewrite take_app_length, drop_through.
    case_bool_decide as Hpre; [|reflexivity].
    exfalso. apply Hn. exists post. subst pre. reflexivity.
Qed.

Lemma spec_item_no_colonz (b : bool) (spec : Z) (s : ustr) it rc rest :
  spec_item b spec s = (it, rc, rest) ->
  it <> Fixed Fixed.TimezoneOffsetColonZ /\ Forall (fun x => x <> Fixed Fixed.TimezoneOffsetColonZ) rc.
Proof.
  unfold spec_item. destruct (to_ascii spec) as [[[] [] [] [] [] [] [] []]|]; cbn;
    intros H; repeat case_match; simplify_eq; split; try discriminate; repeat constructor; discriminate.
Qed.

Lemma strftime_spec_no_colonz (s : ustr) it rc rest :
  strftime_spec s = (it, rc, rest) ->
  it <> Fixed Fixed.TimezoneOffsetColonZ /\ Forall (fun x => x <> Fixed Fixed.TimezoneOffsetColonZ) rc.
Proof.
  unfold strftime_spec. intros H. repeat case_match; simplify_eq;
    repeat match goal with
    | E : spec_item _ _ _ = _ |- _ => apply spec_item_no_colonz in E as [? ?]
    end;
    try (split; [discriminate|auto]); try (split; assumption).
Qed.

Lemma strftime_go_no_colonz (fuel : nat) (s : ustr) :
  Forall (fun x => x <> Fixed Fixed.TimezoneOffsetColonZ) (strftime_go fuel s).
Proof.
  revert s. induction fuel as [|fuel IH]; intros s; simpl; [constructor|].
  destruct (strftime_next s) as [[[it rc] rest]|] eqn:E; [|constructor].
  unfold strftime_next in E.
  assert (it <> Fixed Fixed.TimezoneOffsetColonZ /\ Forall (fun x => x <> Fixed Fixed.TimezoneOffsetColonZ) rc)
    as [Hit Hrc].
  { repeat case_match; simplify_eq; try (split; [discriminate|constructor]).
    eapply strftime_spec_no_colonz. eassumption. }
  constructor; [exact Hit|]. apply Forall_app. split; [exact Hrc|apply IH].
Qed.

Lemma item_to_string_own (it : Item) :
  it <> Fixed Fixed.TimezoneOffsetColonZ -> is_error (own_strftime it) = false ->
  exists x, item_to_string (own_strftime it) = Ok x.
Proof.
  intros Hc He. destruct it as [s|s|s|s|n p|f|]; simpl; eauto.
  - destruct n; simpl in *; try discriminate; eauto.
  - destruct f; simpl in *; try discriminate; eauto; try congruence.
    destruct i; simpl in *; try discriminate; eauto.
  - simpl in He. discriminate.
Qed.

Lemma pattern_to_string_go_ok (l : list Item) (acc : ustr) :
  Forall (fun it => exists x, item_to_string it = Ok x) l ->
  exists str, pattern_to_string_go l acc = Ok str.
Proof.
  revert acc. induction l as [|it l IH]; intros acc Hl; simpl; [eauto|].
  inversion Hl as [|? ? [x Hx] Hrest]; subst. rewrite Hx. apply IH. exact Hrest.
Qed.

Lemma parse_pattern_to_string_ok (t : ustr) (s : list Item) :
  parse_pattern t = Some s -> exists str, pattern_to_string s = Ok str.
Proof.
  unfold parse_pattern. case_match eqn:He; intros H; [discriminate|]. injection H as <-.
  apply pattern_to_string_go_ok. apply Forall_map.
  pose proof (strftime_go_no_colonz (S (length t)) t) as Hc. fold (StrftimeItems t) in Hc.
  apply Forall_forall. intros it Hin. apply item_to_string_own.
  - rewrite Forall_forall in Hc. apply Hc. exact Hin.
  - destruct (is_error (own_strftime it)) eqn:Ei; [|reflexivity]. exfalso.
    assert (existsb is_error (map own_strftime (StrftimeItems t)) = true) as Ht.
    { apply existsb_exists. exists (own_strftime it). split; [apply in_map; apply list_elem_of_In; exact Hin|exact Ei]. }
    congruence.
Qed.

(** Every template accepted by [parse_pattern] serializes again:
    [Output::pattern_as_string] cannot panic on it. *)
Theorem parse_pattern_serializes (t : ustr) (s : list Item) :
  parse_pattern t = Some s -> exists str, pattern_to_string s = Ok str.
Proof. exact (parse_pattern_to_string_ok t s). Qed.

Lemma MatchingIter_no_brace_witness :
  MatchingIter (StrftimeItems (u "output_log_%Y-%m-%d.txt")) (fun _ => None) =
    StrftimeItems (u "output_log_%Y-%m-%d.txt").
Proof.
  apply MatchingIter_no_brace. intros it s Hin Hs. vm_compute in Hin.
  repeat destruct Hin as [<-|Hin]; try contradiction; vm_compute in Hs; try discriminate;
    injection Hs as <-; vm_compute; intuition discriminate.
Defined.

Lemma parse_pattern_serializes_witness :
  exists s, parse_pattern (u "%Y-%m-%d %Z") = Some s /\ exists str, pattern_to_string s = Ok str.
Proof.
  eexists. split; [vm_compute; reflexivity|].
  apply (parse_pattern_serializes (u "%Y-%m-%d %Z")). vm_compute. reflexivity.
Defined.

(** ** Reading the folders and the configuration *)

Lemma bind_rel {A B} (R : FileSystem -> FileSystem -> Prop) (P : A -> Prop)
    (m : M A) (k : A -> M B) (env : Env) (fs fs' : FileSystem) r l :
  (forall x y z, R x y -> R y z -> R x z) ->
  (forall fs1 r1 l1, m env fs = (r1, fs1, l1) -> R fs fs1 /\ (forall a, r1 = ROk a -> P a)) ->
  (forall a fs1 fs2 r2 l2, P a -> k a env fs1 = (r2, fs2, l2) -> R fs1 fs2) ->
  bind m k env fs = (r, fs', l) -> R fs fs'.
Proof.
  intros Htr Hm Hk H.
  apply bind_inv in H as [(a & fs1 & l1 & l2 & E1 & E2 & _)|[(e & E1 & _)|(E1 & _)]].
  - destruct (Hm _ _ _ E1) as [H1 HP]. eapply Htr; [exact H1|]. eapply Hk; [apply HP; reflexivity|exact E2].
  - exact (proj1 (Hm _ _ _ E1)).
  - exact (proj1 (Hm _ _ _ E1)).
Qed.

Lemma attempt_rel {A} (R : FileSystem -> FileSystem -> Prop) (m : M A) (env : Env) (fs fs' : FileSystem) r l :
  (forall fs1 r1 l1, m env fs = (r1, fs1, l1) -> R fs fs1) ->
  attempt m env fs = (r, fs', l) -> R fs fs'.
Proof.
  intros Hm. unfold attempt. destruct (m env fs) as [[r1 fs1] l1] eqn:E.
  specialize (Hm _ _ _ eq_refl). destruct r1; intros H; injection H as _ <- _; exact Hm.
Qed.


Lemma outside_trans dst p x y z : outside dst p x y -> outside dst p y z -> outside dst p x z.
Proof. unfold outside. intros H1 H2 q Hq Hp. rewrite H2, H1 by assumption. reflexivity. Qed.

Ltac outside_goal :=
  intros ? ? ?; simpl; rewrite ?lookup_insert_ne, ?lookup_delete_ne by congruence; reflexivity.

Ltac prim_outside :=
  let H := fresh in
  intros ? ? ? H;
  unfold open_rw, open_read, metadata, read_exact, create_dir_all, exists_, get_env, log,
    last_os_error, mret, M_ret, ret, fail, panic, copy, set_file_time, rename,
    open_create_new, io_copy, flush, remove_file, syscall in H;
  repeat case_match; simplify_eq;
  lazymatch goal with
  | |- _ /\ _ => split; [outside_goal|intros; simplify_eq; reflexivity]
  | |- _ => outside_goal
  end.

Lemma move_file_outside (p dst : path) (env : Env) (fs fs' : FileSystem) r l :
  move_file p dst env fs = (r, fs', l) -> outside dst p fs fs'.
Proof.
  unfold move_file. apply (bind_rel _ (fun _ => True)); [apply outside_trans| |].
  - intros fs1 r1 l1 H. split; [|auto]. revert H. apply attempt_rel. prim_outside.
  - intros [u1|e] fs1 fs2 r2 l2 _.
    + unfold mret, M_ret, ret. intros H. simplify_eq. intros ? ? ?. reflexivity.
    + case_bool_decide.
      * unfold move_by_copy.
        apply (bind_rel _ (fun h => h = p)); [apply outside_trans|prim_outside|].
        intros h fs3 fs4 r4 l4 ->.
        apply (bind_rel _ (fun h => h = dst)); [apply outside_trans|prim_outside|].
        intros h fs5 fs6 r6 l6 ->.
        apply (bind_rel _ (fun _ => True)); [apply outside_trans|prim_outside|].
        intros _ fs7 fs8 r8 l8 _.
        apply (bind_rel _ (fun _ => True)); [apply outside_trans|prim_outside|].
        intros _ fs9 fs10 r10 l10 _. revert fs10 r10 l10. prim_outside.
      * intros Hf. unfold fail in Hf. simplify_eq. intros ? ? ?. reflexivity.
Qed.

Lemma keep_old_branch_outside (p dst : path) (env : Env) (fs fs' : FileSystem) r l :
  (copy p dst;;
   src <- open_read p;;
   md <- metadata src;;
   dst_file <- open_read dst;;
   let handle := temporary_raw_handle dst_file in
   success <- set_file_time handle md.1 md.2;;
   if success then e <- last_os_error;; fail e else mret tt) env fs = (r, fs', l) ->
  outside dst dst fs fs'.
Proof.
  apply (bind_rel _ (fun _ => True)); [apply outside_trans|prim_outside|].
  intros _ fs1 fs2 r2 l2 _.
  apply (bind_rel _ (fun _ => True)); [apply outside_trans|prim_outside|].
  intros src fs3 fs4 r4 l4 _.
  apply (bind_rel _ (fun _ => True)); [apply outside_trans|prim_outside|].
  intros md fs5 fs6 r6 l6 _.
  apply (bind_rel _ (fun h => h = dst)); [apply outside_trans|prim_outside|].
  intros h fs7 fs8 r8 l8 ->.
  apply (bind_rel _ (fun _ => True)); [apply outside_trans|prim_outside|].
  intros [|] fs9 fs10 r10 l10 _.
  - apply (bind_rel _ (fun _ => True)); [apply outside_trans|prim_outside|].
    intros e fs11 fs12 r12 l12 _. revert fs12 r12 l12. prim_outside.
  - revert fs10 r10 l10. prim_outside.
Qed.

(** [place_log_file] writes only [dst], and removes [p] only without
    [keep_old]; an existing [dst] is never written. *)
Lemma place_log_file_outside (config : ConfigFile) (p dst : path) (env : Env) (fs fs' : FileSystem) r l :
  place_log_file config p dst env fs = (r, fs', l) ->
  (path_exists fs dst = true -> fs' = fs) /\
  forall q, q <> dst -> (keep_old (source config) = true \/ q <> p) -> files fs' !! q = files fs !! q.
Proof.
  intros H. destruct (path_exists fs dst) eqn:Hex.
  - rewrite place_log_file_existing in H by exact Hex. injection H as _ <- _.
    split; [reflexivity|]. intros; reflexivity.
  - split; [discriminate|]. intros q Hq Hk.
    unfold place_log_file in H.
    apply bind_inv in H as [(a & fs1 & l1 & l2 & E1 & H & _)|[(e & E1 & _)|(E1 & _)]];
      unfold exists_ in E1; simplify_eq.
    unfold path_exists in Hex. rewrite Hex in H. cbv beta iota in H.
    destruct (keep_old (source config)) eqn:Hkeep.
    + exact (keep_old_branch_outside _ _ _ _ _ _ _ H q Hq Hq).
    + apply (move_file_outside _ _ _ _ _ _ _ H q Hq). destruct Hk; congruence.
Qed.

Lemma attempt_inv {A} (m : M A) (env : Env) (fs fs1 : FileSystem) r l :
  attempt m env fs = (r, fs1, l) ->
  (exists r', m env fs = (r', fs1, l)) /\ forall e, r <> RErr e.
Proof.
  unfold attempt. destruct (m env fs) as [[[a|e|] fs2] l2]; intros H; injection H as <- <- <-;
    (split; [eauto|discriminate]).
Qed.

Lemma move_log_file_keeps (config : ConfigFile) (p : path) (caps : Captures) (env : Env)
    (fs fs' : FileSystem) r l (q : path) (f : file) :
  move_log_file config p caps env fs = (r, fs', l) ->
  files fs !! q = Some f -> (keep_old (source config) = true \/ q <> p) ->
  files fs' !! q = Some f.
Proof.
  unfold move_log_file. intros H Hq Hk.
  apply bind_inv in H as [(d & fs1 & l1 & l2 & E1 & H & _)|[(e & E1 & _)|(E1 & _)]];
    apply log_destination_files in E1; [|congruence|congruence].
  rewrite <- E1 in Hq. destruct d as [dst|].
  - apply place_log_file_outside in H as [Hex Hout].
    destruct (path_exists fs1 dst) eqn:Edst; [rewrite (Hex eq_refl); exact Hq|].
    rewrite Hout; [exact Hq| |exact Hk].
    intros ->. unfold path_exists, is_file in Edst. rewrite Hq in Edst.
    rewrite bool_decide_true in Edst by eauto. discriminate.
  - unfold mret, M_ret, ret in H. simplify_eq. exact Hq.
Qed.

Lemma rename_entries_keeps (config : ConfigFile) (entries : list path) (env : Env)
    (fs fs' : FileSystem) r l (q : path) (f : file) :
  rename_entries config entries env fs = (r, fs', l) ->
  files fs !! q = Some f ->
  (keep_old (source config) = true \/
   forall n, In n entries -> q <> join (source_folder (source config)) n) ->
  files fs' !! q = Some f.
Proof.
  revert fs r l. induction entries as [|n rest IH]; intros fs r l H Hq Hk; cbn [rename_entries] in H.
  - unfold mret, M_ret, ret in H. simplify_eq. exact Hq.
  - assert (Hk' : keep_old (source config) = true \/
                  forall n, In n rest -> q <> join (source_folder (source config)) n)
      by (destruct Hk as [Hk|Hk]; [left; exact Hk|right; intros; apply Hk; right; assumption]).
    destruct (captures (source_pattern (source config)) n) as [caps|]; [|exact (IH _ _ _ H Hq Hk')].
    apply bind_inv in H as [(a & fs1 & l1 & l2 & E1 & H & _)|[(e & E1 & _)|(E1 & _)]];
      unfold log in E1; simplify_eq.
    apply bind_inv in H as [(a & fs2 & l3 & l4 & E2 & H & _)|[(e & E2 & _)|(E2 & _)]];
      apply attempt_inv in E2 as [[r' E2] Hne].
    + assert (Hq2 : files fs2 !! q = Some f).
      { apply (move_log_file_keeps _ _ _ _ _ _ _ _ _ _ E2 Hq).
        destruct Hk as [Hk|Hk]; [left; exact Hk|right; apply Hk; left; reflexivity]. }
      destruct a as [?|e].
      * exact (IH _ _ _ H Hq2 Hk').
      * apply bind_inv in H as [(a & fs3 & l5 & l6 & E3 & H & _)|[(e' & E3 & _)|(E3 & _)]];
          unfold log in E3; simplify_eq.
        exact (IH _ _ _ H Hq2 Hk').
    + exfalso. eapply Hne. reflexivity.
    + apply (move_log_file_keeps _ _ _ _ _ _ _ _ _ _ E2 Hq).
      destruct Hk as [Hk|Hk]; [left; exact Hk|right; apply Hk; left; reflexivity].
Qed.

Lemma strip_prefix_Some (pre s n : ustr) : Parse.strip_prefix pre s = Some n <-> s = pre ++ n.
Proof.
  revert s. induction pre as [|c pre IH]; intros [|d s]; simpl.
  - split; congruence.
  - split; congruence.
  - split; discriminate.
  - destruct (Z.eqb_spec c d) as [->|Hne].
    + rewrite IH. split; [intros ->; reflexivity|intros H; injection H as H; exact H].
    + split; [discriminate|intros H; injection H as H _; congruence].
Qed.

Lemma valid_name_join (dir n : path) :
  n <> [] -> forallb (fun c => negb (is_sep c || (c =? 58)%Z)) n = true ->
  join dir n = dir_prefix dir ++ n.
Proof.
  intros Hn Hv. unfold join.
  destruct n as [|c n]; [congruence|]. simpl in Hv. apply andb_true_iff in Hv as [Hc Hv].
  apply negb_true_iff, orb_false_iff in Hc as [Hc _].
  assert (Hd : has_drive (c :: n) = false).
  { destruct n as [|d n]; [reflexivity|]. simpl in Hv. apply andb_true_iff in Hv as [Hd _].
    apply negb_true_iff, orb_false_iff in Hd as [_ Hd]. simpl. rewrite Hd. apply andb_false_r. }
  rewrite Hd, Hc. reflexivity.
Qed.

Lemma entry_name_Some (dir k n : path) :
  entry_name dir k = Some n <->
  k = join dir n /\ n <> [] /\ forallb (fun c => negb (is_sep c || (c =? 58)%Z)) n = true.
Proof.
  unfold entry_name. split.
  - destruct (Parse.strip_prefix (dir_prefix dir) k) as [n'|] eqn:E; [|discriminate].
    destruct (bool_decide (n' <> []) && _) eqn:Hv; [|discriminate]. intros H. injection H as <-.
    apply andb_true_iff in Hv as [Hn Hv]. apply bool_decide_eq_true in Hn.
    apply strip_prefix_Some in E. rewrite valid_name_join by assumption. auto.
  - intros (-> & Hn & Hv). rewrite valid_name_join by assumption.
    rewrite (proj2 (strip_prefix_Some _ _ n) eq_refl). rewrite Hv, bool_decide_true by exact Hn.
    reflexivity.
Qed.

Lemma NoDup_omap_inj {A B} (f : A -> option B) (l : list A) :
  (forall x y z, f x = Some z -> f y = Some z -> x = y) -> NoDup l -> NoDup (omap f l).
Proof.
  intros Hinj Hl. induction Hl as [|x l Hx Hl IH]; [constructor|].
  cbn. destruct (f x) as [y|] eqn:E; [|exact IH].
  constructor; [|exact IH]. rewrite list_elem_of_omap. intros (x' & Hx' & E').
  apply Hx. rewrite (Hinj _ _ _ E E'). exact Hx'.
Qed.

Lemma read_dir_lists_entries (dir : path) (env : Env) (fs fs1 : FileSystem) es l :
  read_dir dir env fs = (ROk es, fs1, l) ->
  fs1 = fs /\ l = [] /\ is_dir fs dir = true /\
  forall n, In (Ok n) es -> entry_name dir (join dir n) = Some n.
Proof.
  unfold read_dir, syscall. intros H.
  destruct (fault env (OpReadDir dir)); [discriminate|].
  destruct (is_dir fs dir) eqn:Hd; [|discriminate]. injection H as <- <- <-.
  split; [reflexivity|]. split; [reflexivity|]. split; [reflexivity|].
  intros n Hn. apply list_elem_of_In, elem_of_lookup_imap in Hn as (i & k & Hk & Hi).
  destruct (fault env (OpReadDirNext dir i)); [discriminate|]. injection Hk as Hk. subst k.
  apply list_elem_of_lookup_2, list_elem_of_omap in Hi as (k & _ & Hk).
  pose proof Hk as Hk'. apply entry_name_Some in Hk' as (-> & _). exact Hk.
Qed.

Lemma create_dir_all_inv (p : path) (env : Env) (fs fs1 : FileSystem) r l :
  create_dir_all p env fs = (r, fs1, l) ->
  files fs1 = files fs /\ l = [] /\ r <> RPanic /\ dirs fs ⊆ dirs fs1 /\
  (r = ROk tt -> p ∈ dirs fs1).
Proof.
  unfold create_dir_all, syscall. intros H. repeat case_match; simplify_eq;
    repeat split; try discriminate; try set_solver.
  intros _. unfold is_dir in *. case_bool_decide; [assumption|discriminate].
Qed.

Lemma read_dir_inv (dir : path) (env : Env) (fs fs1 : FileSystem) r l :
  read_dir dir env fs = (r, fs1, l) -> fs1 = fs /\ l = [] /\ r <> RPanic.
Proof. unfold read_dir, syscall. intros H. repeat case_match; simplify_eq; repeat split; discriminate. Qed.

Lemma rename_entries_not_err (config : ConfigFile) (entries : list path) (env : Env)
    (fs fs' : FileSystem) r l :
  rename_entries config entries env fs = (r, fs', l) -> r = ROk tt \/ r = RPanic.
Proof.
  revert fs r l. induction entries as [|n rest IH]; intros fs r l H; cbn [rename_entries] in H.
  - unfold mret, M_ret, ret in H. simplify_eq. left. reflexivity.
  - destruct (captures (source_pattern (source config)) n) as [caps|]; [|exact (IH _ _ _ H)].
    apply bind_inv in H as [(a & fs1 & l1 & l2 & E1 & H & _)|[(e & E1 & _)|(E1 & _)]];
      unfold log in E1; simplify_eq.
    apply bind_inv in H as [(a & fs2 & l3 & l4 & E2 & H & _)|[(e & E2 & ->)|(E2 & ->)]].
    + destruct a as [?|e].
      * exact (IH _ _ _ H).
      * apply bind_inv in H as [(a & fs3 & l5 & l6 & E3 & H & _)|[(e' & E3 & _)|(E3 & _)]];
          unfold log in E3; simplify_eq.
        exact (IH _ _ _ H).
    + apply attempt_inv in E2 as [_ Hne]. destruct (Hne e eq_refl).
    + right. reflexivity.
Qed.

Lemma bind_mono {A B} (R : FileSystem -> FileSystem -> Prop)
    (m : M A) (k : A -> M B) (env : Env) (fs fs' : FileSystem) r l :
  (forall x y z, R x y -> R y z -> R x z) ->
  (forall fs1 r1 l1, m env fs = (r1, fs1, l1) -> R fs fs1) ->
  (forall a fs1 fs2 r2 l2, k a env fs1 = (r2, fs2, l2) -> R fs1 fs2) ->
  bind m k env fs = (r, fs', l) -> R fs fs'.
Proof.
  intros Htr Hm Hk. apply (bind_rel R (fun _ => True)); [exact Htr| |].
  - intros fs1 r1 l1 H. split; [exact (Hm _ _ _ H)|auto].
  - intros a fs1 fs2 r2 l2 _. apply Hk.
Qed.


Ltac grow :=
  cbv beta zeta;
  lazymatch goal with
  | |- bind _ _ _ _ = _ -> _ =>
      apply (bind_mono dirs_grow); [unfold dirs_grow; intros ? ? ?; set_solver
                                   | intros ? ? ?; grow | intros ? ? ? ? ?; grow]
  | |- attempt _ _ _ = _ -> _ => apply (attempt_rel dirs_grow); intros ? ? ?; grow
  | |- (match ?x with _ => _ end) _ _ = _ -> _ => destruct x; grow
  | |- (if ?x then _ else _) _ _ = _ -> _ => destruct x; grow
  | |- _ =>
      let H := fresh in
      intros H;
      unfold open_rw, open_read, metadata, read_exact, create_dir_all, exists_, get_env, log,
        last_os_error, mret, M_ret, ret, fail, panic, copy, set_file_time, rename,
        open_create_new, io_copy, flush, remove_file, syscall in H;
      repeat case_match; simplify_eq; unfold dirs_grow; simpl; set_solver
  end.

Lemma move_log_file_dirs (config : ConfigFile) (p : path) (caps : Captures) (env : Env)
    (fs fs' : FileSystem) r l :
  move_log_file config p caps env fs = (r, fs', l) -> dirs fs ⊆ dirs fs'.
Proof.
  unfold move_log_file, log_destination, assume_launch_time, place_log_file, move_file,
    move_by_copy.
  apply (bind_mono dirs_grow); [unfold dirs_grow; intros ? ? ?; set_solver| |].
  - intros ? ? ?. grow.
  - intros ? ? ? ? ?. grow.
Qed.

Lemma rename_entries_dirs (config : ConfigFile) (entries : list path) (env : Env)
    (fs fs' : FileSystem) r l :
  rename_entries config entries env fs = (r, fs', l) -> dirs fs ⊆ dirs fs'.
Proof.
  revert fs fs' r l. induction entries as [|n rest IH]; intros fs fs' r l; cbn [rename_entries].
  - grow.
  - destruct (captures (source_pattern (source config)) n) as [caps|]; [|apply IH].
    apply (bind_mono dirs_grow); [unfold dirs_grow; intros ? ? ?; set_solver|intros ? ? ?; grow|].
    intros _ fs1 fs2 r2 l2.
    apply (bind_mono dirs_grow); [unfold dirs_grow; intros ? ? ?; set_solver| |].
    + intros fs3 r3 l3 H. apply attempt_inv in H as [[r' H] _]. exact (move_log_file_dirs _ _ _ _ _ _ _ _ H).
    + intros [?|?] fs3 fs4 r4 l4; [apply IH|].
      apply (bind_mono dirs_grow); [unfold dirs_grow; intros ? ? ?; set_solver|intros ? ? ?; grow|].
      intros ? ? ? ? ?. apply IH.
Qed.

Lemma bind_logs {A B} (P : log_line -> Prop) (m : M A) (k : A -> M B) (env : Env) (fs fs' : FileSystem) r l :
  (forall fs1 r1 l1, m env fs = (r1, fs1, l1) -> Forall P l1) ->
  (forall a fs1 fs2 r2 l2, k a env fs1 = (r2, fs2, l2) -> Forall P l2) ->
  bind m k env fs = (r, fs', l) -> Forall P l.
Proof.
  intros Hm Hk H. apply bind_inv in H as [(a & fs1 & l1 & l2 & E1 & E2 & ->)|[(e & E1 & _)|(E1 & _)]].
  - apply Forall_app. split; [exact (Hm _ _ _ E1)|exact (Hk _ _ _ _ _ E2)].
  - exact (Hm _ _ _ E1).
  - exact (Hm _ _ _ E1).
Qed.

Lemma attempt_logs {A} (P : log_line -> Prop) (m : M A) (env : Env) (fs fs' : FileSystem) r l :
  (forall fs1 r1 l1, m env fs = (r1, fs1, l1) -> Forall P l1) ->
  attempt m env fs = (r, fs', l) -> Forall P l.
Proof. intros Hm H. apply attempt_inv in H as [[r' H] _]. exact (Hm _ _ _ H). Qed.


Ltac no_matches :=
  cbv beta zeta;
  lazymatch goal with
  | |- bind _ _ _ _ = _ -> _ =>
      apply (bind_logs not_matches); [intros ? ? ?; no_matches | intros ? ? ? ? ?; no_matches]
  | |- attempt _ _ _ = _ -> _ => apply (attempt_logs not_matches); intros ? ? ?; no_matches
  | |- (match ?x with _ => _ end) _ _ = _ -> _ => destruct x; no_matches
  | |- (if ?x then _ else _) _ _ = _ -> _ => destruct x; no_matches
  | |- _ =>
      let H := fresh in
      intros H;
      unfold open_rw, open_read, metadata, read_exact, create_dir_all, exists_, get_env, log,
        last_os_error, mret, M_ret, ret, fail, panic, copy, set_file_time, rename,
        open_create_new, io_copy, flush, remove_file, syscall in H;
      repeat case_match; simplify_eq; repeat constructor
  end.

Lemma move_log_file_no_matches (config : ConfigFile) (p : path) (caps : Captures) (env : Env)
    (fs fs' : FileSystem) r l :
  move_log_file config p caps env fs = (r, fs', l) -> Forall not_matches l.
Proof.
  unfold move_log_file, log_destination, assume_launch_time, place_log_file, move_file,
    move_by_copy.
  no_matches.
Qed.

Lemma omap_matches_nil (l : list log_line) :
  Forall not_matches l ->
  omap (fun x => match x with LogMatches p => Some p | _ => None end) l = [].
Proof. induction 1 as [|x l Hx _ IH]; [reflexivity|]. destruct x; [contradiction|..]; exact IH. Qed.

(** When the loop over the entries finishes, the [matches] lines it
    printed name, in order, the joined path of every entry whose name the
    source pattern matches, and nothing else. *)
Theorem rename_entries_announces (config : ConfigFile) (entries : list path) (env : Env)
    (fs fs' : FileSystem) l :
  rename_entries config entries env fs = (ROk tt, fs', l) ->
  omap (fun x => match x with LogMatches p => Some p | _ => None end) l =
  map (join (source_folder (source config)))
    (List.filter (fun n => bool_decide (is_Some (captures (source_pattern (source config)) n))) entries).
Proof.
  revert fs l. induction entries as [|n rest IH]; intros fs l H; cbn [rename_entries List.filter] in *.
  - unfold mret, M_ret, ret in H. simplify_eq. reflexivity.
  - destruct (captures (source_pattern (source config)) n) as [caps|];
      [rewrite bool_decide_true by eauto|rewrite bool_decide_false by (intros [? ?]; discriminate);
                                         exact (IH _ _ H)].
    apply bind_inv in H as [(a & fs1 & l1 & l2 & E1 & H & ->)|[(e & E1 & _)|(E1 & _)]];
      unfold log in E1; simplify_eq.
    apply bind_inv in H as [(a & fs2 & l3 & l4 & E2 & H & ->)|[(e & E2 & ?)|(E2 & ?)]];
      [|discriminate|discriminate].
    apply attempt_inv in E2 as [[r' E2] _]. apply move_log_file_no_matches in E2.
    cbn [omap list_omap app]. rewrite omap_app, omap_matches_nil by exact E2. cbn [app].
    destruct a as [?|e].
    + rewrite (IH _ _ H). reflexivity.
    + apply bind_inv in H as [(a & fs3 & l5 & l6 & E3 & H & ->)|[(e' & E3 & _)|(E3 & _)]];
        unfold log in E3; simplify_eq.
      cbn. rewrite (IH _ _ H). reflexivity.
Qed.

Lemma bind_assoc {A B C} (m : M A) (k : A -> M B) (k' : B -> M C) (env : Env) (fs : FileSystem) :
  bind (bind m k) k' env fs = bind m (fun a => bind (k a) k') env fs.
Proof.
  unfold bind. destruct (m env fs) as [[[a|e|] fs1] l1]; [|reflexivity|reflexivity].
  destruct (k a env fs1) as [[[b|e|] fs2] l2]; [|reflexivity|reflexivity].
  destruct (k' b env fs2) as [[r fs3] l3]. rewrite app_assoc. reflexivity.
Qed.

Lemma bind_ext {A B} (m m' : M A) (k k' : A -> M B) (env : Env) (fs : FileSystem) :
  (forall env' fs', m env' fs' = m' env' fs') ->
  (forall a env' fs', k a env' fs' = k' a env' fs') ->
  bind m k env fs = bind m' k' env fs.
Proof. intros Hm Hk. unfold bind. rewrite Hm. destruct (m' env fs) as [[[a|e|] fs1] l1]; [rewrite Hk|..]; reflexivity. Qed.

Lemma rename_entries_cons (config : ConfigFile) (n : path) (ns : list path) (env : Env) (fs : FileSystem) :
  rename_entries config (n :: ns) env fs =
    bind (rename_entries config [n]) (fun _ => rename_entries config ns) env fs.
Proof.
  cbn [rename_entries]. destruct (captures (source_pattern (source config)) n) as [caps|].
  - unfold bind, log, attempt, mret, M_ret, ret.
    destruct (move_log_file config (join (source_folder (source config)) n) caps env fs)
      as [[[x|e|] fs1] l1]; cbn; [| |reflexivity];
      destruct (rename_entries config ns env fs1) as [[r2 fs2] l2]; cbn;
      rewrite ?app_nil_r, <- ?app_assoc; reflexivity.
  - unfold bind, mret, M_ret, ret. destruct (rename_entries config ns env fs) as [[r2 fs2] l2]. reflexivity.
Qed.

Lemma rename_loop_app (config : ConfigFile) (ns : list path) (rest : list (result path io_error))
    (env : Env) (fs : FileSystem) :
  rename_loop config (map Ok ns ++ rest) env fs =
    bind (rename_entries config ns) (fun _ => rename_loop config rest) env fs.
Proof.
  revert env fs. induction ns as [|n ns IH]; intros env fs.
  - cbn [map app rename_entries]. unfold bind, mret, M_ret, ret.
    destruct (rename_loop config rest env fs) as [[r fs'] l]. reflexivity.
  - cbn [map app rename_loop].
    rewrite (bind_ext _ (rename_entries config [n]) _
               (fun _ => bind (rename_entries config ns) (fun _ => rename_loop config rest)))
      by (reflexivity || (intros; apply IH)).
    rewrite (bind_ext (rename_entries config (n :: ns))
               (bind (rename_entries config [n]) (fun _ => rename_entries config ns))
               (fun _ => rename_loop config rest) (fun _ => rename_loop config rest))
      by (intros; (apply rename_entries_cons || reflexivity)).
    rewrite bind_assoc. reflexivity.
Qed.

(** When the [read_dir] iterator yields the entries [ns] and then an
    error, the loop of [rename_main] handles the entries of [ns] one
    after the other, as [rename_entries] does, and then returns that
    error: the files changed and the lines printed for [ns] stay. *)
Theorem rename_loop_stops_at_error (config : ConfigFile) (ns : list path) (e : io_error)
    (rest : list (result path io_error)) (env : Env) (fs : FileSystem) :
  rename_loop config (map Ok ns ++ Err e :: rest) env fs =
    match rename_entries config ns env fs with
    | (ROk _, fs', l) => (RErr e, fs', l)
    | other => other
    end.
Proof.
  rewrite rename_loop_app. unfold bind.
  destruct (rename_entries config ns env fs) as [[[x|e'|] fs'] l]; cbn; rewrite ?app_nil_r; reflexivity.
Qed.

Lemma rename_loop_keeps (config : ConfigFile) (entries : list (result path io_error)) (env : Env)
    (fs fs' : FileSystem) r l (q : path) (f : file) :
  rename_loop config entries env fs = (r, fs', l) ->
  files fs !! q = Some f ->
  (keep_old (source config) = true \/
   forall n, In (Ok n) entries -> q <> join (source_folder (source config)) n) ->
  files fs' !! q = Some f.
Proof.
  revert fs r l. induction entries as [|[n|e] rest IH]; intros fs r l H Hq Hk; cbn [rename_loop] in H.
  - unfold mret, M_ret, ret in H. simplify_eq. exact Hq.
  - assert (Hn : keep_old (source config) = true \/
                 forall n', In n' [n] -> q <> join (source_folder (source config)) n')
      by (destruct Hk as [Hk|Hk]; [left; exact Hk|right; intros n' [<-|[]]; apply Hk; left; reflexivity]).
    assert (Hr : keep_old (source config) = true \/
                 forall n', In (Ok n') rest -> q <> join (source_folder (source config)) n')
      by (destruct Hk as [Hk|Hk]; [left; exact Hk|right; intros; apply Hk; right; assumption]).
    apply bind_inv in H as [(a & fs1 & l1 & l2 & E1 & H & _)|[(e & E1 & _)|(E1 & _)]];
      pose proof (rename_entries_keeps _ _ _ _ _ _ _ _ _ E1 Hq Hn) as Hq1; [|exact Hq1|exact Hq1].
    exact (IH _ _ _ H Hq1 Hr).
  - unfold fail in H. simplify_eq. exact Hq.
Qed.

Lemma rename_loop_dirs (config : ConfigFile) (entries : list (result path io_error)) (env : Env)
    (fs fs' : FileSystem) r l :
  rename_loop config entries env fs = (r, fs', l) -> dirs fs ⊆ dirs fs'.
Proof.
  revert fs fs' r l. induction entries as [|[n|e] rest IH]; intros fs fs' r l; cbn [rename_loop].
  - grow.
  - apply (bind_mono dirs_grow); [unfold dirs_grow; intros ? ? ?; set_solver| |].
    + intros ? ? ?. apply rename_entries_dirs.
    + intros ? ? ? ? ?. apply IH.
  - grow.
Qed.

(** [rename_main] never removes or changes an existing file, except a
    directly contained file of the source folder when [keep_old] is off. *)
Theorem rename_main_keeps_files (config : ConfigFile) (env : Env) (fs fs' : FileSystem) r l
    (q : path) (f : file) :
  rename_main config env fs = (r, fs', l) ->
  files fs !! q = Some f ->
  (keep_old (source config) = true \/ entry_name (source_folder (source config)) q = None) ->
  files fs' !! q = Some f.
Proof.
  unfold rename_main. intros H Hq Hk.
  apply bind_inv in H as [(a & fs1 & l1 & l2 & E1 & H & _)|[(e & E1 & _)|(E1 & _)]];
    apply create_dir_all_inv in E1 as (Hf1 & _); rewrite <- Hf1 in Hq; [|exact Hq|exact Hq].
  apply bind_inv in H as [(es & fs2 & l3 & l4 & E2 & H & _)|[(e & E2 & _)|(E2 & _)]];
    [|apply read_dir_inv in E2 as (-> & _); exact Hq|apply read_dir_inv in E2 as (-> & _); exact Hq].
  apply read_dir_lists_entries in E2 as (-> & _ & _ & Hes).
  apply (rename_loop_keeps _ _ _ _ _ _ _ _ _ H Hq).
  destruct Hk as [Hk|Hk]; [left; exact Hk|right].
  intros n Hn ->. rewrite (Hes n Hn) in Hk. discriminate.
Qed.

(** [rename_main] removes no directory, and after a successful run the
    output folder exists. *)
Theorem rename_main_output_folder (config : ConfigFile) (env : Env) (fs fs' : FileSystem) r l :
  rename_main config env fs = (r, fs', l) ->
  dirs fs ⊆ dirs fs' /\ (r = ROk tt -> is_dir fs' (output_folder (output config)) = true).
Proof.
  unfold rename_main. intros H.
  apply bind_inv in H as [(a & fs1 & l1 & l2 & E1 & H & _)|[(e & E1 & ->)|(E1 & ->)]];
    apply create_dir_all_inv in E1 as (_ & _ & Hpanic & Hd1 & Hout);
    [|split; [exact Hd1|discriminate]|split; [exact Hd1|discriminate]].
  destruct a. specialize (Hout eq_refl).
  apply bind_inv in H as [(ns & fs2 & l3 & l4 & E2 & H & _)|[(e & E2 & ->)|(E2 & ->)]];
    apply read_dir_inv in E2 as (-> & _);
    [|split; [exact Hd1|discriminate]|split; [exact Hd1|discriminate]].
  apply rename_loop_dirs in H. split; [set_solver|].
  intros _. unfold is_dir. apply bool_decide_true. set_solver.
Qed.

Lemma Output_read_from_file_err_iff (toml : Value) (self self' : Output) (e : io_error) :
  Output_read_from_file toml self = (self', Err e) <->
  e = new_error InvalidData /\
  (exists str, get toml (u "pattern") = Some (VString str) /\ str <> TRADITIONAL_DEFAULT /\
               parse_pattern str = None) /\
  self' = match get toml (u "folder") with
          | Some (VString str) => mkOutput str (output_pattern self) (utc_time self) (file_ctime self)
          | _ => self
          end.
Proof.
  unfold Output_read_from_file. cbv zeta.
  split.
  - intros H. repeat (case_match || case_bool_decide); simplify_eq; eauto 10.
  - intros (-> & (str & Hp & Hne & Hr) & ->). rewrite Hp, bool_decide_true, Hr by exact Hne. reflexivity.
Qed.

(** [Output::read_from_file] fails exactly on a [pattern] string other
    than [TRADITIONAL_DEFAULT] that [parse_pattern] rejects; the error is
    [InvalidData], and the returned output keeps only the [folder]
    already read, with the pattern and both flags unchanged. *)
Theorem Output_read_from_file_err (toml : Value) (self self' : Output) (e : io_error) :
  Output_read_from_file toml self = (self', Err e) <->
  e = new_error InvalidData /\
  (exists str, get toml (u "pattern") = Some (VString str) /\ str <> TRADITIONAL_DEFAULT /\
               parse_pattern str = None) /\
  self' = match get toml (u "folder") with
          | Some (VString str) => mkOutput str (output_pattern self) (utc_time self) (file_ctime self)
          | _ => self
          end.
Proof. exact (Output_read_from_file_err_iff toml self self' e). Qed.

(** A [pattern] equal to [TRADITIONAL_DEFAULT] is not parsed:
    [Output::read_from_file] keeps the pattern it had and does not fail. *)
Theorem Output_read_from_file_traditional (toml : Value) (self self' : Output) r :
  get toml (u "pattern") = Some (VString TRADITIONAL_DEFAULT) ->
  Output_read_from_file toml self = (self', r) ->
  r = Ok tt /\ output_pattern self' = output_pattern self.
Proof.
  unfold Output_read_from_file. cbv zeta. intros Hp. rewrite Hp, bool_decide_false by tauto.
  intros H. repeat case_match; simplify_eq; auto.
Qed.

Lemma Output_read_from_file_ok_pattern (toml : Value) (self self' : Output) (x : unit) :
  Output_read_from_file toml self = (self', Ok x) ->
  output_pattern self' = output_pattern self \/ exists str, parse_pattern str = Some (output_pattern self').
Proof. unfold Output_read_from_file. cbv zeta. intros H. repeat case_match; simplify_eq; eauto. Qed.

Section ConfigProofs.
Variable regex_new : ustr -> option regex.
Variable toml_from_str : ustr -> result Value io_error.
Variable local_low_appdata_path : path.
Variable config_file_path : path.

Lemma Source_read_from_file_err_iff (toml : Value) (self self' : Source) (e : io_error) :
  Source_read_from_file regex_new toml self = (self', Err e) <->
  e = new_error InvalidData /\
  (exists str, get toml (u "pattern") = Some (VString str) /\ regex_new str = None) /\
  self' = match get toml (u "folder") with
          | Some (VString str) => mkSource str (source_pattern self) (keep_old self)
          | _ => self
          end.
Proof.
  unfold Source_read_from_file. cbv zeta.
  split.
  - intros H. repeat case_match; simplify_eq; eauto 10.
  - intros (-> & (str & Hp & Hr) & ->). rewrite Hp, Hr. reflexivity.
Qed.

(** [Source::read_from_file] fails exactly on a [pattern] string that
    [Regex::new] rejects; the error is [InvalidData], and the returned
    source keeps only the [folder] already read. *)
Theorem Source_read_from_file_err (toml : Value) (self self' : Source) (e : io_error) :
  Source_read_from_file regex_new toml self = (self', Err e) <->
  e = new_error InvalidData /\
  (exists str, get toml (u "pattern") = Some (VString str) /\ regex_new str = None) /\
  self' = match get toml (u "folder") with
          | Some (VString str) => mkSource str (source_pattern self) (keep_old self)
          | _ => self
          end.
Proof. exact (Source_read_from_file_err_iff toml self self' e). Qed.

Lemma ConfigFile_read_from_file_ok_pattern (toml : Value) (self self' : ConfigFile) (x : unit) :
  ConfigFile_read_from_file regex_new toml self = (self', Ok x) ->
  output_pattern (output self') = output_pattern (output self) \/
  exists str, parse_pattern str = Some (output_pattern (output self')).
Proof.
  unfold ConfigFile_read_from_file. intros H.
  destruct (get toml (u "source")) as [sv|].
  - destruct (Source_read_from_file regex_new sv (source self)) as [s [?|e]]; [|discriminate].
    destruct (get toml (u "output")) as [ov|]; [|injection H as <-; left; reflexivity].
    cbn [Program.output Program.source] in H.
    destruct (Output_read_from_file ov (output self)) as [o r] eqn:E. injection H as <- ->.
    exact (Output_read_from_file_ok_pattern _ _ _ _ E).
  - destruct (get toml (u "output")) as [ov|]; [|injection H as <-; left; reflexivity].
    cbn [Program.output Program.source] in H.
    destruct (Output_read_from_file ov (output self)) as [o r] eqn:E. injection H as <- ->.
    exact (Output_read_from_file_ok_pattern _ _ _ _ E).
Qed.



(** With no file and no directory at the configuration path (and the
    open not refused otherwise), [read_config] gives the default
    configuration and touches nothing. *)
Theorem read_config_missing_file (env : Env) (fs : FileSystem) :
  fault env (OpOpen config_file_path) = None ->
  files fs !! config_file_path = None -> config_file_path ∉ dirs fs ->
  read_config regex_new toml_from_str local_low_appdata_path config_file_path env fs =
    (ROk (ConfigFile_default local_low_appdata_path), fs, []).
Proof.
  intros Hf Hn Hd. unfold read_config, read_to_string.
  assert (Ho : open_read config_file_path env fs = (RErr ERROR_FILE_NOT_FOUND, fs, [])).
  { unfold open_read, syscall, is_dir, is_file. rewrite Hf, Hn.
    rewrite bool_decide_false by exact Hd. rewrite bool_decide_false by (intros [? ?]; discriminate).
    reflexivity. }
  erewrite bind_ROk by (apply attempt_RErr; erewrite bind_RErr by exact Ho; reflexivity).
  reflexivity.
Qed.


(** The output pattern of any configuration [read_config] returns
    serializes: [Output::pattern_as_string] cannot panic on it. *)
Theorem read_config_pattern_serializes (env : Env) (fs fs' : FileSystem) (c : ConfigFile) l :
  read_config regex_new toml_from_str local_low_appdata_path config_file_path env fs = (ROk c, fs', l) ->
  exists str, pattern_to_string (output_pattern (output c)) = Ok str.
Proof.
  assert (Hd : exists str, pattern_to_string (output_pattern (output (ConfigFile_default local_low_appdata_path))) = Ok str).
  { eexists. vm_compute. reflexivity. }
  unfold read_config, bind at 1, attempt.
  destruct (read_to_string config_file_path env fs) as [[[t|e'|] fs1] l1];
    [|destruct (kind e'); intros H; [injection H as <- _ _; exact Hd|discriminate..] | discriminate].
  destruct (toml_from_str t) as [v|e']; [|discriminate].
  destruct (ConfigFile_read_from_file regex_new v (ConfigFile_default local_low_appdata_path))
    as [c' [x|e']] eqn:Ec; [|discriminate].
  intros H. injection H as <- _ _.
  apply ConfigFile_read_from_file_ok_pattern in Ec as [->|[str Hs]]; [exact Hd|].
  exact (parse_pattern_to_string_ok _ _ Hs).
Qed.

End ConfigProofs.


(** Without [file_ctime], a matching log file shorter than the 19 bytes
    of its launch time is announced, reported with [UnexpectedEof], left
    in place, and the loop goes on with the next entry. *)
Theorem short_log_file_reported (config : ConfigFile) (n : path) (rest : list path) (caps : Captures)
    (env : Env) (fs : FileSystem) (fl : file) :
  file_ctime (output config) = false ->
  captures (source_pattern (source config)) n = Some caps ->
  fault env (OpOpen (join (source_folder (source config)) n)) = None ->
  fault env (OpRead (join (source_folder (source config)) n)) = None ->
  join (source_folder (source config)) n ∉ dirs fs ->
  files fs !! join (source_folder (source config)) n = Some fl ->
  join (source_folder (source config)) n ∉ locked env ->
  (length (contents fl) < 19)%nat ->
  rename_entries config (n :: rest) env fs =
    (let '(r, fs', l) := rename_entries config rest env fs in
     (r, fs', LogMatches (join (source_folder (source config)) n) ::
              LogErrorMoving (join (source_folder (source config)) n) (new_error UnexpectedEof) :: l)).
Proof.
  intros Hc Hcap Ho Hr Hd Hp Hl Hn.
  rewrite (rename_entries_error _ _ _ _ _ _ _ _ _ Hcap
             (move_log_file_launch_error _ _ caps _ _ _ _ Hc Ho Hd Hp Hl
                (assume_launch_time_short _ _ _ _ Hr Hp Hn))).
  reflexivity.
Qed.

Lemma short_log_file_reported_witness :
  rename_entries (config false) [log_name] plain_env (world short_contents) =
    (ROk tt, world short_contents,
     [LogMatches log_path; LogErrorMoving log_path (new_error UnexpectedEof)]).
Proof.
  rewrite (short_log_file_reported (config false) log_name [] log_caps plain_env (world short_contents)
             (mkFile short_contents 7 8) eq_refl ltac:(vm_compute; reflexivity) eq_refl eq_refl
             ltac:(apply (bool_decide_eq_false_1 _); vm_compute; reflexivity)
             ltac:(vm_compute; reflexivity)
             ltac:(apply (bool_decide_eq_false_1 _); vm_compute; reflexivity)
             ltac:(vm_compute; lia)).
  reflexivity.
Defined.

Lemma rename_main_keeps_files_witness :
  files (rename_main (config true) plain_env (world log_contents)).1.2 !! log_path =
    Some (mkFile log_contents 7 8).
Proof.
  apply (rename_main_keeps_files (config true) plain_env (world log_contents)
           (rename_main (config true) plain_env (world log_contents)).1.2
           (rename_main (config true) plain_env (world log_contents)).1.1
           (rename_main (config true) plain_env (world log_contents)).2
           log_path (mkFile log_contents 7 8)
           ltac:(vm_compute; reflexivity) ltac:(vm_compute; reflexivity) (or_introl eq_refl)).
Defined.

Lemma rename_main_output_folder_witness :
  dirs (world log_contents) ⊆ dirs (rename_main (config false) plain_env (world log_contents)).1.2 /\
  is_dir (rename_main (config false) plain_env (world log_contents)).1.2 output_dir = true.
Proof.
  destruct (rename_main_output_folder (config false) plain_env (world log_contents)
              (rename_main (config false) plain_env (world log_contents)).1.2
              (rename_main (config false) plain_env (world log_contents)).1.1
              (rename_main (config false) plain_env (world log_contents)).2
              ltac:(vm_compute; reflexivity)) as [Hd Ho].
  split; [exact Hd|]. apply Ho. vm_compute. reflexivity.
Defined.

Lemma rename_entries_announces_witness :
  omap (fun x => match x with LogMatches p => Some p | _ => None end)
    (rename_entries (config true) [log_name; u "notes.txt"] plain_env (world log_contents)).2 =
  [log_path].
Proof.
  rewrite (rename_entries_announces (config true) [log_name; u "notes.txt"] plain_env (world log_contents)
             (rename_entries (config true) [log_name; u "notes.txt"] plain_env (world log_contents)).1.2
             (rename_entries (config true) [log_name; u "notes.txt"] plain_env (world log_contents)).2
             ltac:(vm_compute; reflexivity)).
  vm_compute. reflexivity.
Defined.

Lemma Output_read_from_file_traditional_witness :
  (Output_read_from_file traditional_toml (Output_default local_low)).2 = Ok tt /\
  output_pattern (Output_read_from_file traditional_toml (Output_default local_low)).1 =
    output_pattern (Output_default local_low).
Proof.
  apply (Output_read_from_file_traditional traditional_toml (Output_default local_low)
           (Output_read_from_file traditional_toml (Output_default local_low)).1
           (Output_read_from_file traditional_toml (Output_default local_low)).2
           ltac:(vm_compute; reflexivity) ltac:(vm_compute; reflexivity)).
Defined.

Lemma read_config_missing_file_witness :
  read_config no_regex toml_output local_low config_path plain_env empty_world =
    (ROk (ConfigFile_default local_low), empty_world, []).
Proof.
  apply (read_config_missing_file no_regex toml_output local_low config_path plain_env empty_world
           ltac:(vm_compute; reflexivity) ltac:(vm_compute; reflexivity)
           ltac:(apply (bool_decide_eq_false_1 _); vm_compute; reflexivity)).
Defined.


Lemma read_config_pattern_serializes_witness :
  exists str, read_config no_regex toml_output local_low config_path plain_env config_world =
                (ROk read_example, config_world, []) /\
              pattern_to_string (output_pattern (output read_example)) = Ok str.
Proof.
  destruct (read_config_pattern_serializes no_regex toml_output local_low config_path plain_env config_world
              config_world read_example [] ltac:(vm_compute; reflexivity)) as [str Hs].
  exists str. split; [vm_compute; reflexivity|exact Hs].
Defined.
